(** * callcounter: a per-thread function-call counter

    A shallow embedding of [src/callcounter.cpp] and the properties of its
    entry hook, of the thread-local accumulator and its destructor, and of
    the process constructor.

    Conventions of the embedding
    - a [void*] is the natural number of its address ([NULL] is 0);
    - an [unsigned long] is a natural number below [2 ^ ulong_bits], and
      every arithmetic result is reduced modulo [2 ^ ulong_bits];
    - [std::unordered_map<void*, unsigned long>] is a finite map
      [gmap N N]; the order in which a range-for visits it is a parameter;
    - the file system, the environment and the two globals of the
      translation unit ([outfile], [file_mutex]) form the record [Process];
      every stdio call is a function on it and leaves an entry in a log. *)

From Stdlib Require Import NArith DecimalString HexadecimalString Ascii String.
From Stdlib Require DecimalPos DecimalN HexadecimalPos HexadecimalN.
From stdpp Require Import gmap strings list fin_maps relations.

#[local] Open Scope N_scope.

(** ** The thread-local accumulator *)

(** [struct ThreadCallMap { std::unordered_map<void*, unsigned long> map; }] *)
Record ThreadCallMap := { map : gmap N N }.

(** The value-initialised object every thread starts with. *)
Definition thread_call_map_init : ThreadCallMap := {| map := ∅ |}.

Definition NULL : N := 0.

Section EntryHook.

(** Width of [unsigned long] in bits: 64 on LP64 targets, 32 on ILP32 and
    LLP64 ones. *)
Variable ulong_bits : N.

Definition ULONG_MAX : N := 2 ^ ulong_bits - 1.

Definition ulong_wrap (n : N) : N := n mod 2 ^ ulong_bits.

(** [operator[]] of the map: the slot of [key], inserted with the
    value-initialised counter 0 when [key] has none. Returns the map
    after the possible insertion and the slot's current value. *)
Definition subscript (key : N) (m : gmap N N) : gmap N N * N :=
  match m !! key with
  | Some value => (m, value)
  | None => (<[key := 0]> m, 0)
  end.

(** [thread_call_map.map[func]++;] *)
Definition __cyg_profile_func_enter (func caller : N) (t : ThreadCallMap)
  : ThreadCallMap :=
  let '(m, value) := subscript func (map t) in
  {| map := <[func := ulong_wrap (value + 1)]> m |}.

(** The exit hook has an empty body. *)
Definition __cyg_profile_func_exit (func caller : N) (t : ThreadCallMap)
  : ThreadCallMap := t.

(** A thread's hook invocations in program order, each a pair
    [(func, caller)]. *)
Definition run_hooks (calls : list (N * N)) (t : ThreadCallMap)
  : ThreadCallMap :=
  foldl (λ acc call, __cyg_profile_func_enter call.1 call.2 acc) t calls.

(** Number of invocations in [calls] whose callee is [func]. *)
Definition occurrences (func : N) (calls : list (N * N)) : N :=
  N.of_nat (length (filter (λ call, call.1 = func) calls)).

End EntryHook.

(** ** The process: globals, environment, file system *)

Inductive fmode := ModeW | ModeA.

Inductive io_event :=
| IoOpen (path : string) (mode : fmode) (ok : bool)
| IoWrite (path : string) (data : list ascii)
| IoClose (path : string).

(** [outfile] and [file_mutex] are the two statics of the translation unit;
    the rest is what the C library shows of the outside: the environment,
    the content of every file, the paths at which an open for writing
    fails, and the stdio calls made so far (oldest first). *)
Record Process := mkProcess {
  outfile : string;
  file_mutex : bool;
  environ : gmap string string;
  files : gmap string (list ascii);
  unwritable : gset string;
  io_log : list io_event
}.

(** The statics as their initialisers leave them, before any constructor
    has run. *)
Definition process_start (env : gmap string string)
    (fs : gmap string (list ascii)) (ro : gset string) : Process :=
  mkProcess "callcounter.raw" false env fs ro [].

Definition set_outfile (path : string) (p : Process) : Process :=
  mkProcess path (file_mutex p) (environ p) (files p) (unwritable p) (io_log p).

Definition set_file_mutex (b : bool) (p : Process) : Process :=
  mkProcess (outfile p) b (environ p) (files p) (unwritable p) (io_log p).

Definition set_files (fs : gmap string (list ascii)) (p : Process) : Process :=
  mkProcess (outfile p) (file_mutex p) (environ p) fs (unwritable p) (io_log p).

Definition log_io (e : io_event) (p : Process) : Process :=
  mkProcess (outfile p) (file_mutex p) (environ p) (files p) (unwritable p)
    (io_log p ++ [e]).

(** What is in the file at [path]; a missing file has no bytes. *)
Definition content (path : string) (p : Process) : list ascii :=
  default [] (files p !! path).

(** The file an entry of the log is about. *)
Definition event_path (e : io_event) : string :=
  match e with
  | IoOpen path _ _ | IoWrite path _ | IoClose path => path
  end.

Definition set_environ (env : gmap string string) (p : Process) : Process :=
  mkProcess (outfile p) (file_mutex p) env (files p) (unwritable p) (io_log p).

(** *** stdio *)

Record FILE := { f_path : string }.

Definition getenv (name : string) (p : Process) : option string :=
  environ p !! name.

(** [fopen(path, mode)]: [None] is the null handle. A successful open
    creates the file when it is missing; mode "w" also truncates it. *)
Definition fopen (path : string) (mode : fmode) (p : Process)
  : option FILE * Process :=
  if decide (path ∈ unwritable p) then (None, log_io (IoOpen path mode false) p)
  else
    let bytes := match mode with ModeW => [] | ModeA => content path p end in
    (Some {| f_path := path |},
     log_io (IoOpen path mode true) (set_files (<[path := bytes]> (files p)) p)).

(** Bytes handed to a stream opened for append land at the end of the file. *)
Definition fwrite (data : list ascii) (f : FILE) (p : Process) : Process :=
  log_io (IoWrite (f_path f) data)
    (set_files (<[f_path f := content (f_path f) p ++ data]> (files p)) p).

Definition fclose (f : FILE) (p : Process) : Process :=
  log_io (IoClose (f_path f)) p.

(** *** The record format ["%p %lu %zu\n"] *)

(** [%p] as glibc prints it: [(nil)] for a null pointer, otherwise [0x]
    and the address in lower-case hexadecimal. *)
Definition fmt_p (ptr : N) : string :=
  match ptr with
  | 0 => "(nil)"
  | _ => "0x" +:+ HexadecimalString.NilZero.string_of_uint (N.to_hex_uint ptr)
  end.

(** [%lu] and [%zu]: unsigned decimal. *)
Definition fmt_lu (n : N) : string :=
  DecimalString.NilZero.string_of_uint (N.to_uint n).

Definition fmt_zu (n : N) : string :=
  DecimalString.NilZero.string_of_uint (N.to_uint n).

Definition newline : ascii := "010"%char.

(** The separator of the three fields. *)
Definition space : ascii := " "%char.

(** The text of one record, without its line terminator. *)
Definition record_text (key value tid_num : N) : list ascii :=
  list_ascii_of_string
    (fmt_p key +:+ " " +:+ fmt_lu value +:+ " " +:+ fmt_zu tid_num).

(** What [fprintf(f, "%p %lu %zu\n", key, value, tid_num)] produces. *)
Definition record_line (key value tid_num : N) : list ascii :=
  record_text key value tid_num ++ [newline].

Definition fprintf_record (f : FILE) (key value tid_num : N) (p : Process)
  : Process :=
  fwrite (record_line key value tid_num) f p.

(** Cuts a byte sequence at every line terminator; bytes after the last
    terminator form a final, unterminated piece. *)
Fixpoint split_lines (cur bytes : list ascii) : list (list ascii) * list ascii :=
  match bytes with
  | [] => ([], cur)
  | b :: rest =>
      if decide (b = newline) then
        let '(ls, tail) := split_lines [] rest in (cur :: ls, tail)
      else split_lines (cur ++ [b]) rest
  end.

(** *** Reading a record line

    How a reader of the file takes a line apart: three fields separated
    by single spaces, the first a pointer as [%p] prints it, the other
    two unsigned decimal numbers. *)

Fixpoint split_fields (cur bytes : list ascii) : list (list ascii) :=
  match bytes with
  | [] => [cur]
  | b :: rest =>
      if decide (b = space) then cur :: split_fields [] rest
      else split_fields (cur ++ [b]) rest
  end.

Definition parse_dec (field : list ascii) : option N :=
  N.of_uint
  <$> DecimalString.NilZero.uint_of_string (string_of_list_ascii field).

Definition parse_ptr (field : list ascii) : option N :=
  match field with
  | "0"%char :: "x"%char :: digits =>
      N.of_hex_uint
      <$> HexadecimalString.NilZero.uint_of_string
            (string_of_list_ascii digits)
  | _ => if decide (field = list_ascii_of_string "(nil)") then Some 0
         else None
  end.

Definition parse_record (line : list ascii) : option (N * N * N) :=
  match split_fields [] line with
  | [ptr; count; tag] =>
      key ← parse_ptr ptr;
      value ← parse_dec count;
      tid_num ← parse_dec tag;
      Some (key, value, tid_num)
  | _ => None
  end.

(** ** Process-wide initialisation *)

(** [cc_constructor]: runs once, before [main]. *)
Definition cc_constructor (p : Process) : Process :=
  let p1 := match getenv "CC_OUTFILE" p with
            | Some env => set_outfile env p
            | None => p
            end in
  match fopen (outfile p1) ModeW p1 with
  | (Some f, p2) => fclose f p2
  | (None, p2) => p2
  end.

(** ** Teardown of a thread's accumulator *)

(** [std::lock_guard] on [file_mutex]. Acquiring a held mutex blocks; in a
    run without other threads nobody would release it, which [None]
    stands for. *)
Definition lock_guard_acquire (p : Process) : option Process :=
  if file_mutex p then None else Some (set_file_mutex true p).

Definition lock_guard_release (p : Process) : Process :=
  set_file_mutex false p.

Section Teardown.

(** [std::hash<std::thread::id>], from the C++ library. *)
Variable hash_thread_id : N → N.

(** The order in which [for (const auto& [key, value] : map)] visits the
    entries, from the C++ library. *)
Variable iteration_order : gmap N N → list (N * N).

(** The loop of the destructor's body. *)
Definition write_records (f : FILE) (tid_num : N) (entries : list (N * N))
    (p : Process) : Process :=
  foldl (λ acc entry, fprintf_record f entry.1 entry.2 tid_num acc) p entries.

(** [ThreadCallMap::~ThreadCallMap()], run by the thread [tid] when it
    ends, without interference from other threads. *)
Definition ThreadCallMap_dtor (tid : N) (t : ThreadCallMap) (p : Process)
  : option Process :=
  if decide (map t = ∅) then Some p
  else
    p1 ← lock_guard_acquire p;
    let p3 :=
      match fopen (outfile p1) ModeA p1 with
      | (Some f, p2) =>
          let tid_num := hash_thread_id tid in
          fclose f (write_records f tid_num (iteration_order (map t)) p2)
      | (None, p2) => p2
      end in
    Some (lock_guard_release p3).

Variable ulong_bits : N.

(** The life of one thread: its instrumented calls, then the destructor
    of its thread-local accumulator. *)
Definition thread_main (tid : N) (calls : list (N * N)) (p : Process)
  : option Process :=
  ThreadCallMap_dtor tid (run_hooks ulong_bits calls thread_call_map_init) p.

(** Threads that end one after the other. *)
Fixpoint run_threads (ths : list (N * list (N * N))) (p : Process)
  : option Process :=
  match ths with
  | [] => Some p
  | (tid, calls) :: rest => p' ← thread_main tid calls p; run_threads rest p'
  end.

(** A whole run: the constructor, then the threads. *)
Definition run_process (env : gmap string string)
    (fs : gmap string (list ascii)) (ro : gset string)
    (ths : list (N * list (N * N))) : option Process :=
  run_threads ths (cc_constructor (process_start env fs ro)).

End Teardown.

(** ** Threads that run and end concurrently

    The same code, cut into the steps at which another thread may run in
    between. A thread first makes its instrumented calls, then runs the
    destructor of its accumulator. Inside [fprintf] the bytes of a line
    reach the file one at a time: stdio may pass a line on in any number of
    pieces, and one byte per step covers every such cut. *)

Inductive pc :=
| InBody (calls : list (N * N))
    (** running instrumented code, [calls] still to come *)
| AtEmptyCheck
    (** [if (map.empty()) return;] *)
| AtLock
    (** [std::lock_guard<std::mutex> lock(file_mutex);] *)
| AtFopen
    (** [FILE *f = fopen(outfile, "a");] *)
| AtLoop (f : FILE) (rest : list (N * N))
    (** head of the range-for, [rest] still to visit *)
| InFprintf (f : FILE) (pending : list ascii) (rest : list (N * N))
    (** inside [fprintf], [pending] not yet in the file *)
| AtUnlock
    (** end of the scope of [lock] *)
| Ended.

Record Thread := mkThread {
  tid : N;
  thread_call_map : ThreadCallMap;
  at_pc : pc
}.

Definition goto (l : pc) (t : Thread) : Thread :=
  mkThread (tid t) (thread_call_map t) l.

Record System := mkSystem {
  threads : list Thread;
  proc : Process
}.

(** Bytes a thread has formatted and not yet passed on to the file. *)
Definition in_flight (t : Thread) : list ascii :=
  match at_pc t with
  | InFprintf _ pending _ => pending
  | _ => []
  end.

(** The thread is between acquiring and releasing [file_mutex]. *)
Definition holds_lock (t : Thread) : bool :=
  match at_pc t with
  | AtFopen | AtLoop _ _ | InFprintf _ _ _ | AtUnlock => true
  | _ => false
  end.

(** The thread has made all its calls: its accumulator is final. *)
Definition in_teardown (t : Thread) : bool :=
  match at_pc t with
  | InBody _ => false
  | _ => true
  end.

Section Concurrent.

Variable hash_thread_id : N → N.
Variable iteration_order : gmap N N → list (N * N).
Variable ulong_bits : N.

(** One step of thread [t]; [None] when it cannot move: it has ended, or
    it waits for the mutex. *)
Definition thread_step (t : Thread) (p : Process) : option (Thread * Process) :=
  match at_pc t with
  | InBody [] => Some (goto AtEmptyCheck t, p)
  | InBody (call :: rest) =>
      Some (mkThread (tid t)
              (__cyg_profile_func_enter ulong_bits call.1 call.2
                 (thread_call_map t))
              (InBody rest), p)
  | AtEmptyCheck =>
      if decide (map (thread_call_map t) = ∅) then Some (goto Ended t, p)
      else Some (goto AtLock t, p)
  | AtLock => p' ← lock_guard_acquire p; Some (goto AtFopen t, p')
  | AtFopen =>
      match fopen (outfile p) ModeA p with
      | (Some f, p') =>
          Some (goto (AtLoop f (iteration_order (map (thread_call_map t)))) t, p')
      | (None, p') => Some (goto AtUnlock t, p')
      end
  | AtLoop f [] => Some (goto AtUnlock t, fclose f p)
  | AtLoop f (entry :: rest) =>
      let tid_num := hash_thread_id (tid t) in
      Some (goto (InFprintf f (record_line entry.1 entry.2 tid_num) rest) t, p)
  | InFprintf f [] rest => Some (goto (AtLoop f rest) t, p)
  | InFprintf f (b :: pending) rest =>
      Some (goto (InFprintf f pending rest) t, fwrite [b] f p)
  | AtUnlock => Some (goto Ended t, lock_guard_release p)
  | Ended => None
  end.

(** Any thread that can move may be the next to move. *)
Inductive step : System → System → Prop :=
| step_thread s i t t' p' :
    threads s !! i = Some t →
    thread_step t (proc s) = Some (t', p') →
    step s (mkSystem (<[i := t']> (threads s)) p').

(** The threads [(tid, calls)] at their start, over the process [p]. *)
Definition system_start (ths : list (N * list (N * N))) (p : Process) : System :=
  mkSystem
    ((λ th, mkThread th.1 thread_call_map_init (InBody th.2)) <$> ths) p.

(** Thread [t] alone, for at most [fuel] steps. *)
Fixpoint thread_steps (fuel : nat) (t : Thread) (p : Process) : Thread * Process :=
  match fuel with
  | O => (t, p)
  | S fuel' =>
      match thread_step t p with
      | Some (t', p') => thread_steps fuel' t' p'
      | None => (t, p)
      end
  end.

(** [(key, value, tid_num)] is a record of some thread of [s]: the final
    count of [key] in a thread whose tag is [tid_num]. *)
Definition genuine (s : System) (r : N * N * N) : Prop :=
  ∃ t, t ∈ threads s ∧ in_teardown t = true ∧
       r.2 = hash_thread_id (tid t) ∧
       map (thread_call_map t) !! r.1.1 = Some r.1.2.

End Concurrent.

(** The bytes of a sequence of records [(key, value, tid_num)]. *)
Definition records_bytes (rs : list (N * N * N)) : list ascii :=
  concat ((λ r, record_line r.1.1 r.1.2 r.2) <$> rs).

(** Bytes formatted by the threads of [s] and not yet in the file. *)
Definition pending_bytes (s : System) : list ascii :=
  concat (in_flight <$> threads s).

(** *** Schedules *)

Section Schedules.

Variable hash_thread_id : N → N.
Variable iteration_order : gmap N N → list (N * N).
Variable ulong_bits : N.

(** Thread number [i] moves, if there is such a thread and it can. *)
Definition sched_step (i : nat) (s : System) : System :=
  match threads s !! i with
  | Some t =>
      match thread_step hash_thread_id iteration_order ulong_bits t (proc s) with
      | Some (t', p') => mkSystem (<[i := t']> (threads s)) p'
      | None => s
      end
  | None => s
  end.

(** The threads move in the order [sched] names them. *)
Definition run_schedule (sched : list nat) (s : System) : System :=
  foldl (λ acc i, sched_step i acc) s sched.

End Schedules.

(** *** What holds of every state the threads can reach *)

(** A thread inside the loop has its stream on [path], and the entries
    it has yet to visit are entries of its accumulator. *)
Definition thread_ok (path : string) (t : Thread) : Prop :=
  match at_pc t with
  | AtLoop f rest | InFprintf f _ rest =>
      f_path f = path
      ∧ ∀ e, e ∈ rest → map (thread_call_map t) !! e.1 = Some e.2
  | _ => True
  end.

(** [file_mutex] is held exactly when a thread is between acquiring and
    releasing it, and then only one thread is. *)
Definition mutex_ok (s : System) : Prop :=
  if file_mutex (proc s) then
    ∃ i t, threads s !! i = Some t ∧ holds_lock t = true
           ∧ ∀ j t', threads s !! j = Some t' → holds_lock t' = true → j = i
  else Forall (λ t, holds_lock t = false) (threads s).

(** The file at [path], completed by the bytes still in flight, is [base]
    followed by whole records of the threads. *)
Definition whole_records (hash_thread_id : N → N) (path : string)
    (base : list ascii) (s : System) : Prop :=
  ∃ rs, content path (proc s) ++ pending_bytes s = base ++ records_bytes rs
        ∧ Forall (genuine hash_thread_id s) rs.

Definition system_inv (hash_thread_id : N → N) (path : string)
    (base : list ascii) (s : System) : Prop :=
  outfile (proc s) = path
  ∧ mutex_ok s
  ∧ Forall (thread_ok path) (threads s)
  ∧ whole_records hash_thread_id path base s.

(** Two process states that differ at most in the log of stdio calls. *)
Definition same_state (p q : Process) : Prop :=
  outfile p = outfile q ∧ file_mutex p = file_mutex q
  ∧ environ p = environ q ∧ files p = files q
  ∧ unwritable p = unwritable q.

(** *** A scenario

    Two threads whose teardowns race, each moving in turn: the first has
    called the function at 0x1000 three times and the one at 0x2000 once,
    the second has called the function at 0x1000 twice. *)
Definition race_threads : list (N * list (N * N)) :=
  [(1, [(4096, 0); (4096, 0); (8192, 4096); (4096, 0)]);
   (2, [(4096, 0); (4096, 0)])].

Definition race_schedule : list nat :=
  concat (replicate 60 [0; 1]%nat).

(** ** Entry and exit hooks together *)

(** What the instrumented code of a thread does to the profiler: it calls
    the entry hook or the exit hook. *)
Inductive hook_event :=
| Enter (func caller : N)
| Exit (func caller : N).

Definition run_event (ulong_bits : N) (ev : hook_event) (t : ThreadCallMap)
  : ThreadCallMap :=
  match ev with
  | Enter func caller => __cyg_profile_func_enter ulong_bits func caller t
  | Exit func caller => __cyg_profile_func_exit func caller t
  end.

Definition run_events (ulong_bits : N) (evs : list hook_event)
    (t : ThreadCallMap) : ThreadCallMap :=
  foldl (λ acc ev, run_event ulong_bits ev acc) t evs.

(** The entry-hook calls among [evs], in order. *)
Definition entries_of (evs : list hook_event) : list (N * N) :=
  omap (λ ev, match ev with
              | Enter func caller => Some (func, caller)
              | Exit _ _ => None
              end) evs.

(** ** The records of a thread *)

Definition tag_entries (tid_num : N) (entries : list (N * N))
  : list (N * N * N) :=
  (λ e, (e.1, e.2, tid_num)) <$> entries.

Section Records.

Variable hash_thread_id : N → N.
Variable iteration_order : gmap N N → list (N * N).
Variable ulong_bits : N.

(** The records the destructor of the thread [(tid, calls)] prints. Their
    order here is [iteration_order] of the final accumulator; the order a
    real map is visited in also depends on the order of the insertions,
    so statements about the records of several threads use this list up
    to permutation. *)
Definition thread_records (th : N * list (N * N)) : list (N * N * N) :=
  tag_entries (hash_thread_id th.1)
    (iteration_order (map (run_hooks ulong_bits th.2 thread_call_map_init))).

(** Where a thread of a running system comes from: the thread
    [(tid, calls)] has made some of its calls and no others, or all of
    them once it is in teardown. *)
Definition thread_origin (th : N * list (N * N)) (t : Thread) : Prop :=
  tid t = th.1
  ∧ match at_pc t with
    | InBody rest =>
        ∃ made, th.2 = made ++ rest
                ∧ thread_call_map t
                  = run_hooks ulong_bits made thread_call_map_init
    | _ => thread_call_map t
           = run_hooks ulong_bits th.2 thread_call_map_init
    end.

(** The records a thread has formatted so far; [writable] tells whether
    the file could be opened. *)
Definition flushed (writable : bool) (t : Thread) : list (N * N * N) :=
  let entries := iteration_order (map (thread_call_map t)) in
  match at_pc t with
  | AtLoop _ rest | InFprintf _ _ rest =>
      tag_entries (hash_thread_id (tid t))
        (take (length entries - length rest) entries)
  | AtUnlock | Ended =>
      if writable then tag_entries (hash_thread_id (tid t)) entries else []
  | _ => []
  end.

(** A thread inside the loop has opened the file at [path], and has the
    entries of its accumulator in front of it: those visited, then those
    still to visit. *)
Definition loop_ok (path : string) (writable : bool) (t : Thread) : Prop :=
  match at_pc t with
  | AtLoop f rest | InFprintf f _ rest =>
      f_path f = path ∧ writable = true
      ∧ ∃ visited, iteration_order (map (thread_call_map t)) = visited ++ rest
  | _ => True
  end.

(** *** How long a thread can still run *)

(** Steps the loop takes over [entries]: per entry one to format the
    line, one per byte, one to come back. *)
Fixpoint loop_cost (id : N) (entries : list (N * N)) : nat :=
  match entries with
  | [] => 0
  | e :: rest =>
      2 + length (record_line e.1 e.2 (hash_thread_id id)) + loop_cost id rest
  end.

(** An upper bound on the steps thread [t] can still take. *)
Definition steps_left (t : Thread) : nat :=
  match at_pc t with
  | InBody calls =>
      S (length calls)
      + (5 + loop_cost (tid t)
               (iteration_order
                  (map (run_hooks ulong_bits calls (thread_call_map t)))))
  | AtEmptyCheck =>
      5 + loop_cost (tid t) (iteration_order (map (thread_call_map t)))
  | AtLock =>
      4 + loop_cost (tid t) (iteration_order (map (thread_call_map t)))
  | AtFopen =>
      3 + loop_cost (tid t) (iteration_order (map (thread_call_map t)))
  | AtLoop _ rest => 2 + loop_cost (tid t) rest
  | InFprintf _ pending rest => length pending + (3 + loop_cost (tid t) rest)
  | AtUnlock => 1
  | Ended => 0
  end.

Definition total_left (s : System) : nat :=
  sum_list (steps_left <$> threads s).

End Records.

Definition ended (t : Thread) : bool :=
  match at_pc t with
  | Ended => true
  | _ => false
  end.

(** What holds of every reachable state about the records in the file:
    they are, in some order, the records the threads have formatted. *)
Definition flush_inv (hash_thread_id : N → N)
    (iteration_order : gmap N N → list (N * N)) (path : string)
    (writable : bool) (base : list ascii) (s : System) : Prop :=
  outfile (proc s) = path
  ∧ bool_decide (path ∉ unwritable (proc s)) = writable
  ∧ mutex_ok s
  ∧ Forall (loop_ok iteration_order path writable) (threads s)
  ∧ ∃ rs,
      content path (proc s) ++ pending_bytes s = base ++ records_bytes rs
      ∧ rs ≡ₚ concat (flushed hash_thread_id iteration_order writable
                        <$> threads s).

(** *** Streams *)

(** Streams opened and not closed, going by the log of stdio calls. *)
Definition open_streams (log : list io_event) : Z :=
  foldr (λ e n, match e with
                | IoOpen _ _ true => n + 1
                | IoClose _ => n - 1
                | _ => n
                end)%Z 0%Z log.

(** Whether the thread is where it has a stream open. *)
Definition has_stream (t : Thread) : nat :=
  match at_pc t with
  | AtLoop _ _ | InFprintf _ _ _ => 1
  | _ => 0
  end.

Definition streams_held (s : System) : nat :=
  sum_list (has_stream <$> threads s).

(** * Properties *)

(** ** The entry hook *)

Section EntryHookFacts.

Variable ulong_bits : N.

Abbreviation enter := (__cyg_profile_func_enter ulong_bits).
Abbreviation run := (run_hooks ulong_bits).
Abbreviation wrap := (ulong_wrap ulong_bits).

Lemma enter_unfold func caller t :
  enter func caller t =
  {| map := <[func := wrap (default 0 (map t !! func) + 1)]> (map t) |}.
Proof.
  unfold __cyg_profile_func_enter, subscript.
  destruct (map t !! func) as [v|] eqn:E; simpl; [done|].
  by rewrite insert_insert_eq.
Qed.

Lemma enter_lookup_same func caller t :
  map (enter func caller t) !! func
  = Some (wrap (default 0 (map t !! func) + 1)).
Proof. rewrite enter_unfold. simpl. apply lookup_insert_eq. Qed.

Lemma enter_lookup_other func caller t g :
  g ≠ func → map (enter func caller t) !! g = map t !! g.
Proof. intros. rewrite enter_unfold. simpl. by rewrite lookup_insert_ne. Qed.

Lemma wrap_succ_wrap a b : wrap (wrap a + b) = wrap (a + b).
Proof. unfold ulong_wrap. by rewrite N.Div0.add_mod_idemp_l. Qed.

Lemma wrap_lt n : wrap n < 2 ^ ulong_bits.
Proof. unfold ulong_wrap. apply N.mod_lt. by apply N.pow_nonzero. Qed.

Lemma run_cons call calls t :
  run (call :: calls) t = run calls (enter call.1 call.2 t).
Proof. reflexivity. Qed.

Lemma run_snoc calls call t :
  run (calls ++ [call]) t = enter call.1 call.2 (run calls t).
Proof. unfold run_hooks. by rewrite foldl_app. Qed.

Lemma occurrences_nil func : occurrences func [] = 0.
Proof. reflexivity. Qed.

Lemma occurrences_cons func call calls :
  occurrences func (call :: calls)
  = (if decide (call.1 = func) then 1 else 0) + occurrences func calls.
Proof.
  unfold occurrences. rewrite filter_cons.
  destruct (decide (call.1 = func)); simpl length; lia.
Qed.

Lemma occurrences_repeat func caller n :
  occurrences func (repeat (func, caller) n) = N.of_nat n.
Proof.
  induction n as [|n IH]; [done|].
  change (repeat (func, caller) (S n))
    with ((func, caller) :: repeat (func, caller) n).
  rewrite occurrences_cons, IH. simpl. rewrite decide_True by done. lia.
Qed.

(** From any accumulator: a callee that does not occur keeps its slot (or
    its absence); one that occurs [k > 0] times ends with its old count
    plus [k], reduced to the width of the counter. *)
Lemma run_lookup calls : ∀ t func,
  map (run calls t) !! func
  = if decide (occurrences func calls = 0) then map t !! func
    else Some (wrap (default 0 (map t !! func) + occurrences func calls)).
Proof.
  induction calls as [|call calls IH]; intros t func.
  - by rewrite occurrences_nil.
  - rewrite run_cons, IH, occurrences_cons.
    destruct (decide (call.1 = func)) as [<-|Hne].
    + rewrite enter_lookup_same.
      destruct (decide (occurrences call.1 calls = 0)) as [E|?].
      * rewrite E, decide_False by lia. by rewrite N.add_0_r.
      * rewrite !decide_False by lia. unfold default, from_option, id.
        by rewrite wrap_succ_wrap, N.add_assoc.
    + rewrite enter_lookup_other by done. rewrite N.add_0_l.
      by destruct (decide (occurrences func calls = 0)).
Qed.

Lemma run_lookup_init calls func :
  map (run calls thread_call_map_init) !! func
  = if decide (occurrences func calls = 0) then None
    else Some (occurrences func calls `mod` 2 ^ ulong_bits).
Proof. rewrite run_lookup. simpl. by rewrite lookup_empty. Qed.

Lemma run_counters_bounded calls func value :
  map (run calls thread_call_map_init) !! func = Some value →
  value < 2 ^ ulong_bits.
Proof.
  rewrite run_lookup_init. case_decide; [done|].
  intros [= <-]. apply wrap_lt.
Qed.

Lemma run_same_callees calls1 calls2 : ∀ t,
  calls1.*1 = calls2.*1 → run calls1 t = run calls2 t.
Proof.
  revert calls2.
  induction calls1 as [|[f c1] calls1 IH]; intros [|[g c2] calls2] t H;
    try done.
  injection H as -> H. rewrite !run_cons, !enter_unfold. by apply IH.
Qed.

End EntryHookFacts.

Section EntryHookClaims.

Variable ulong_bits : N.

Lemma run_repeat_lookup func caller n :
  n ≠ 0 →
  map (run_hooks ulong_bits (repeat (func, caller) (N.to_nat n))
         thread_call_map_init) !! func
  = Some (n `mod` 2 ^ ulong_bits).
Proof.
  intros Hn. rewrite run_lookup_init, occurrences_repeat, N2Nat.id.
  by rewrite decide_False.
Qed.

Lemma keys_unique (m : gmap N N) : NoDup (map_to_list m).*1.
Proof. apply NoDup_fst_map_to_list. Qed.

(** C1, with counts taken modulo the width of the counter. After any
    sequence of entry-hook invocations on one thread, starting from the
    empty accumulator, an identity that does not occur has no entry and
    one that occurs [k] times has the count [k mod 2 ^ ulong_bits], which
    is [k] itself as long as [k] is below [2 ^ ulong_bits]. A single hook call sets the callee's count to its old
    count plus 1 modulo [2 ^ ulong_bits], inserts it with count 1 when it
    was absent, and leaves every other identity alone. The keys of the
    accumulator are pairwise distinct. *)
Theorem frequency_invariant_modulo_width calls func caller t :
  0 < ulong_bits →
  (map (run_hooks ulong_bits calls thread_call_map_init) !! func
   = if decide (occurrences func calls = 0) then None
     else Some (occurrences func calls `mod` 2 ^ ulong_bits))
  ∧ (0 < occurrences func calls < 2 ^ ulong_bits →
     map (run_hooks ulong_bits calls thread_call_map_init) !! func
     = Some (occurrences func calls))
  ∧ map (__cyg_profile_func_enter ulong_bits func caller t) !! func
    = Some ((default 0 (map t !! func) + 1) `mod` 2 ^ ulong_bits)
  ∧ (map t !! func = None →
     map (__cyg_profile_func_enter ulong_bits func caller t) !! func
     = Some 1)
  ∧ (∀ g, g ≠ func →
          map (__cyg_profile_func_enter ulong_bits func caller t) !! g
          = map t !! g)
  ∧ NoDup (map_to_list
             (map (run_hooks ulong_bits calls thread_call_map_init))).*1
  ∧ NoDup (map_to_list
             (map (__cyg_profile_func_enter ulong_bits func caller t))).*1.
Proof.
  intros Hw.
  assert (1 < 2 ^ ulong_bits) as Hlt.
  { change 1 with (2 ^ 0). apply N.pow_lt_mono_r; lia. }
  split_and!.
  - apply run_lookup_init.
  - intros [Hpos Hsmall]. rewrite run_lookup_init, decide_False by lia.
    by rewrite N.mod_small.
  - apply enter_lookup_same.
  - intros Habs. rewrite enter_lookup_same, Habs. unfold ulong_wrap. simpl.
    by rewrite N.mod_small.
  - intros g Hg. by apply enter_lookup_other.
  - apply keys_unique.
  - apply keys_unique.
Qed.

(** C8. The hook's result does not depend on its [caller] argument: one
    call with either of two callers gives the same accumulator, and so do
    two whole runs over the same callees with different callers. *)
Theorem caller_is_unused func caller1 caller2 t (calls : list (N * (N * N))) :
  __cyg_profile_func_enter ulong_bits func caller1 t
  = __cyg_profile_func_enter ulong_bits func caller2 t
  ∧ run_hooks ulong_bits ((λ c, (c.1, c.2.1)) <$> calls) t
    = run_hooks ulong_bits ((λ c, (c.1, c.2.2)) <$> calls) t.
Proof.
  split; [by rewrite !enter_unfold|].
  apply run_same_callees. rewrite <- !list_fmap_compose.
  by apply list_fmap_ext.
Qed.

(** C9. A null callee is a key like any other: the hook stores its
    incremented count under the key [NULL] without any check, and after a
    run its count obeys the same formula as every other identity's. *)
Theorem null_callee_is_ordinary_key calls caller t :
  __cyg_profile_func_enter ulong_bits NULL caller t
  = {| map := <[NULL := ulong_wrap ulong_bits (default 0 (map t !! NULL) + 1)]>
                (map t) |}
  ∧ (∀ func,
       map (run_hooks ulong_bits calls thread_call_map_init) !! func
       = if decide (occurrences func calls = 0) then None
         else Some (occurrences func calls `mod` 2 ^ ulong_bits))
  ∧ map (run_hooks ulong_bits calls thread_call_map_init) !! NULL
    = if decide (occurrences NULL calls = 0) then None
      else Some (occurrences NULL calls `mod` 2 ^ ulong_bits).
Proof.
  split_and!; [apply enter_unfold | apply run_lookup_init..].
Qed.

(** C10. Counters have the width of [unsigned long]: a count at
    [ULONG_MAX = 2 ^ ulong_bits - 1] becomes 0 with the next call of that
    callee, and no call ever leaves a count above [ULONG_MAX]. *)
Theorem counter_wraps_at_ulong_max func caller t :
  map t !! func = Some (ULONG_MAX ulong_bits) →
  map (__cyg_profile_func_enter ulong_bits func caller t) !! func = Some 0
  ∧ ∀ g c t' value,
      map (__cyg_profile_func_enter ulong_bits g c t') !! g = Some value →
      value ≤ ULONG_MAX ulong_bits.
Proof.
  intros Hmax.
  assert (2 ^ ulong_bits ≠ 0) as Hnz by (by apply N.pow_nonzero).
  split.
  - rewrite enter_lookup_same, Hmax. unfold ulong_wrap, ULONG_MAX. simpl.
    f_equal. replace (2 ^ ulong_bits - 1 + 1) with (2 ^ ulong_bits) by lia.
    by apply N.Div0.mod_same.
  - intros g c t' value. rewrite enter_lookup_same. intros [= <-].
    pose proof (wrap_lt ulong_bits (default 0 (map t' !! g) + 1)).
    unfold ULONG_MAX. lia.
Qed.

End EntryHookClaims.

(** C1 without the modulus does not hold. On a 64-bit [unsigned long],
    after [2 ^ 64] calls of one function its count is 0, not [2 ^ 64]. *)
Lemma frequency_invariant_counterexample :
  occurrences 4096 (repeat (4096, 0) (N.to_nat (2 ^ 64))) = 2 ^ 64
  ∧ map (run_hooks 64 (repeat (4096, 0) (N.to_nat (2 ^ 64)))
           thread_call_map_init) !! 4096 = Some 0
  ∧ map (run_hooks 64 (repeat (4096, 0) (N.to_nat (2 ^ 64)))
           thread_call_map_init) !! 4096
    ≠ Some (occurrences 4096 (repeat (4096, 0) (N.to_nat (2 ^ 64)))).
Proof.
  assert (2 ^ 64 ≠ 0) as Hnz by (by apply N.pow_nonzero).
  rewrite occurrences_repeat, N2Nat.id, run_repeat_lookup by exact Hnz.
  rewrite N.Div0.mod_same.
  split_and!; [reflexivity | reflexivity |].
  intros H. discriminate H.
Qed.

Lemma frequency_invariant_modulo_width_witness :
  0 < 64
  ∧ map (run_hooks 64 [(4096, 1); (8192, 1); (4096, 2)] thread_call_map_init)
      !! 4096 = Some 2.
Proof.
  split; [reflexivity|].
  pose proof (frequency_invariant_modulo_width 64
                [(4096, 1); (8192, 1); (4096, 2)] 4096 0
                thread_call_map_init eq_refl) as (_ & H & _).
  apply H. by vm_compute.
Defined.

Lemma counter_wraps_at_ulong_max_witness :
  map {| map := {[4096 := ULONG_MAX 64]} |} !! 4096 = Some (ULONG_MAX 64)
  ∧ map (__cyg_profile_func_enter 64 4096 0
           {| map := {[4096 := ULONG_MAX 64]} |}) !! 4096 = Some 0.
Proof.
  split; [reflexivity|].
  apply (counter_wraps_at_ulong_max 64 4096 0
           {| map := {[4096 := ULONG_MAX 64]} |}).
  reflexivity.
Defined.

(** ** The record format *)

Lemma list_ascii_of_string_app s1 s2 :
  list_ascii_of_string (s1 +:+ s2)
  = list_ascii_of_string s1 ++ list_ascii_of_string s2.
Proof. induction s1 as [|c s1 IH]; simpl; [done|]. by rewrite IH. Qed.

Lemma dec_digits_no_newline d :
  newline ∉ list_ascii_of_string (DecimalString.NilEmpty.string_of_uint d).
Proof.
  induction d; simpl; rewrite ?not_elem_of_cons;
    first [apply not_elem_of_nil | split; [discriminate | assumption]].
Qed.

Lemma hex_digits_no_newline d :
  newline ∉ list_ascii_of_string (HexadecimalString.NilEmpty.string_of_uint d).
Proof.
  induction d; simpl; rewrite ?not_elem_of_cons;
    first [apply not_elem_of_nil | split; [discriminate | assumption]].
Qed.

Lemma fmt_lu_no_newline n : newline ∉ list_ascii_of_string (fmt_lu n).
Proof.
  unfold fmt_lu, DecimalString.NilZero.string_of_uint.
  destruct (N.to_uint n) eqn:E; try (rewrite <- E; apply dec_digits_no_newline).
  simpl. rewrite not_elem_of_cons. split; [discriminate | apply not_elem_of_nil].
Qed.

Lemma fmt_p_no_newline ptr : newline ∉ list_ascii_of_string (fmt_p ptr).
Proof.
  destruct ptr as [|q]; simpl.
  - rewrite !not_elem_of_cons. split_and!; try discriminate.
    apply not_elem_of_nil.
  - rewrite !not_elem_of_cons. split_and!; try discriminate.
    unfold HexadecimalString.NilZero.string_of_uint.
    destruct (Pos.to_hex_uint q) eqn:E;
      try (rewrite <- E; apply hex_digits_no_newline).
    simpl. rewrite not_elem_of_cons. split; [discriminate | apply not_elem_of_nil].
Qed.

Lemma record_text_no_newline key value tid_num :
  newline ∉ record_text key value tid_num.
Proof.
  unfold record_text. rewrite !list_ascii_of_string_app, !not_elem_of_app.
  split_and!;
    try apply fmt_p_no_newline; try apply fmt_lu_no_newline;
    simpl; rewrite not_elem_of_cons;
    (split; [discriminate | apply not_elem_of_nil]).
Qed.

Lemma split_lines_text cur text rest :
  newline ∉ text →
  split_lines cur (text ++ newline :: rest)
  = ((cur ++ text) :: (split_lines [] rest).1, (split_lines [] rest).2).
Proof.
  revert cur. induction text as [|b text IH]; intros cur Hnl; simpl.
  - rewrite app_nil_r. by destruct (split_lines [] rest).
  - apply not_elem_of_cons in Hnl as [Hb Hnl].
    rewrite decide_False by done. rewrite IH by done. by rewrite <- app_assoc.
Qed.

(** Reading back what a sequence of [fprintf] calls wrote gives one line
    per record, each the text of its record, and nothing after the last. *)
Lemma split_lines_records rs :
  split_lines [] (records_bytes rs)
  = ((λ r, record_text r.1.1 r.1.2 r.2) <$> rs, []).
Proof.
  induction rs as [|r rs IH]; [done|].
  unfold records_bytes in *. rewrite fmap_cons. simpl concat.
  unfold record_line at 1. rewrite <- app_assoc. simpl app.
  rewrite split_lines_text by apply record_text_no_newline.
  by rewrite IH.
Qed.

(** ** The record format, read back *)

Lemma dec_digits_no_space d :
  space ∉ list_ascii_of_string (DecimalString.NilEmpty.string_of_uint d).
Proof.
  induction d; simpl; rewrite ?not_elem_of_cons;
    first [apply not_elem_of_nil | split; [discriminate | assumption]].
Qed.

Lemma hex_digits_no_space d :
  space ∉ list_ascii_of_string (HexadecimalString.NilEmpty.string_of_uint d).
Proof.
  induction d; simpl; rewrite ?not_elem_of_cons;
    first [apply not_elem_of_nil | split; [discriminate | assumption]].
Qed.

Lemma fmt_lu_no_space n : space ∉ list_ascii_of_string (fmt_lu n).
Proof.
  unfold fmt_lu, DecimalString.NilZero.string_of_uint.
  destruct (N.to_uint n) eqn:E; try (rewrite <- E; apply dec_digits_no_space).
  simpl. rewrite not_elem_of_cons. split; [discriminate | apply not_elem_of_nil].
Qed.

Lemma fmt_p_no_space ptr : space ∉ list_ascii_of_string (fmt_p ptr).
Proof.
  destruct ptr as [|q]; simpl.
  - rewrite !not_elem_of_cons. split_and!; try discriminate.
    apply not_elem_of_nil.
  - rewrite !not_elem_of_cons. split_and!; try discriminate.
    unfold HexadecimalString.NilZero.string_of_uint.
    destruct (Pos.to_hex_uint q) eqn:E;
      try (rewrite <- E; apply hex_digits_no_space).
    simpl. rewrite not_elem_of_cons. split; [discriminate | apply not_elem_of_nil].
Qed.

Lemma to_uint_nonnil n : N.to_uint n ≠ Decimal.Nil.
Proof. destruct n; [discriminate | apply DecimalPos.Unsigned.to_uint_nonnil]. Qed.

Lemma fmt_lu_inj n m : fmt_lu n = fmt_lu m → n = m.
Proof.
  unfold fmt_lu. intros H.
  apply (f_equal DecimalString.NilZero.uint_of_string) in H.
  rewrite !DecimalString.NilZero.usu in H by apply to_uint_nonnil.
  injection H as H. by apply DecimalN.Unsigned.to_uint_inj.
Qed.

Lemma hex_inj p q :
  HexadecimalString.NilZero.string_of_uint (N.to_hex_uint (N.pos p))
  = HexadecimalString.NilZero.string_of_uint (N.to_hex_uint (N.pos q)) →
  p = q.
Proof.
  intros H. apply (f_equal HexadecimalString.NilZero.uint_of_string) in H.
  rewrite !HexadecimalString.NilZero.usu in H
    by apply HexadecimalPos.Unsigned.to_uint_nonnil.
  injection H as H. by apply HexadecimalPos.Unsigned.to_uint_inj.
Qed.

Lemma fmt_p_inj p q : fmt_p p = fmt_p q → p = q.
Proof.
  destruct p as [|p], q as [|q]; unfold fmt_p; try done.
  intros H. f_equal. apply hex_inj.
  change (String "0" (String "x"
            (HexadecimalString.NilZero.string_of_uint
               (N.to_hex_uint (N.pos p))))
          = String "0" (String "x"
              (HexadecimalString.NilZero.string_of_uint
                 (N.to_hex_uint (N.pos q))))) in H.
  by injection H.
Qed.

Lemma list_ascii_of_string_inj s1 s2 :
  list_ascii_of_string s1 = list_ascii_of_string s2 → s1 = s2.
Proof.
  intros H. apply (f_equal string_of_list_ascii) in H.
  by rewrite !string_of_list_ascii_of_string in H.
Qed.

(** Two texts that agree up to and after a separator that occurs in
    neither head have the same heads and the same tails. *)
Lemma split_at_separator (c : ascii) a : ∀ a' b b',
  c ∉ a → c ∉ a' → a ++ c :: b = a' ++ c :: b' → a = a' ∧ b = b'.
Proof.
  induction a as [|x a IH]; intros [|x' a'] b b' Ha Ha' H; simpl in H.
  - by injection H as ->.
  - injection H as <- _. exfalso. apply Ha'. by left.
  - injection H as -> _. exfalso. apply Ha. by left.
  - injection H as -> H. apply not_elem_of_cons in Ha as [_ Ha].
    apply not_elem_of_cons in Ha' as [_ Ha'].
    destruct (IH a' b b' Ha Ha' H) as [-> ->]. done.
Qed.

Lemma record_text_inj k v t k' v' t' :
  record_text k v t = record_text k' v' t' → k = k' ∧ v = v' ∧ t = t'.
Proof.
  unfold record_text. rewrite !list_ascii_of_string_app. simpl.
  intros H.
  apply (split_at_separator space) in H as [Hk H];
    [|apply fmt_p_no_space..].
  apply (split_at_separator space) in H as [Hv Ht];
    [|apply fmt_lu_no_space..].
  split_and!.
  - by apply fmt_p_inj, list_ascii_of_string_inj.
  - by apply fmt_lu_inj, list_ascii_of_string_inj.
  - by apply fmt_lu_inj, list_ascii_of_string_inj.
Qed.

Lemma records_bytes_inj rs : ∀ rs',
  records_bytes rs = records_bytes rs' → rs = rs'.
Proof.
  intros rs' H. apply (f_equal (split_lines [])) in H.
  rewrite !split_lines_records in H. injection H as H. revert rs' H.
  induction rs as [|[[k v] t] rs IH]; intros [|[[k' v'] t'] rs'] H;
    try done.
  rewrite !fmap_cons in H. injection H as Hr H. simpl in Hr.
  apply record_text_inj in Hr as (-> & -> & ->). f_equal. by apply IH.
Qed.

(** X5. Records are unambiguous: two sequences of records
    [(key, count, tag)] that print as the same bytes are the same
    sequence; in particular one line stands for one record only. *)
Theorem records_are_unambiguous rs rs' :
  records_bytes rs = records_bytes rs' → rs = rs'.
Proof. apply records_bytes_inj. Qed.

Lemma records_are_unambiguous_witness :
  records_bytes [(4096, 3, 77); (0, 1, 77)]
  = records_bytes [(4096, 3, 77); (0, 1, 77)]
  ∧ [(4096, 3, 77); (0, 1, 77)] = [(4096, 3, 77); (NULL, 1, 77)].
Proof.
  split; [reflexivity|].
  apply (records_are_unambiguous [(4096, 3, 77); (0, 1, 77)]
           [(4096, 3, 77); (NULL, 1, 77)]).
  reflexivity.
Defined.

(** *** Reading a line back *)

Lemma split_fields_last cur text :
  space ∉ text → split_fields cur text = [cur ++ text].
Proof.
  revert cur. induction text as [|b text IH]; intros cur Hsp; simpl.
  - by rewrite app_nil_r.
  - apply not_elem_of_cons in Hsp as [Hb Hsp].
    rewrite decide_False by done. rewrite IH by done.
    by rewrite <- app_assoc.
Qed.

Lemma split_fields_field cur text rest :
  space ∉ text →
  split_fields cur (text ++ space :: rest)
  = (cur ++ text) :: split_fields [] rest.
Proof.
  revert cur. induction text as [|b text IH]; intros cur Hsp; simpl.
  - by rewrite app_nil_r.
  - apply not_elem_of_cons in Hsp as [Hb Hsp].
    rewrite decide_False by done. rewrite IH by done.
    by rewrite <- app_assoc.
Qed.

Lemma parse_dec_fmt_lu n : parse_dec (list_ascii_of_string (fmt_lu n)) = Some n.
Proof.
  unfold parse_dec, fmt_lu. rewrite string_of_list_ascii_of_string.
  rewrite DecimalString.NilZero.usu by apply to_uint_nonnil. simpl.
  by rewrite DecimalN.Unsigned.of_to.
Qed.

Lemma parse_ptr_fmt_p ptr : parse_ptr (list_ascii_of_string (fmt_p ptr)) = Some ptr.
Proof.
  destruct ptr as [|q]; [reflexivity|].
  change (list_ascii_of_string (fmt_p (N.pos q)))
    with ("0"%char :: "x"%char
          :: list_ascii_of_string
               (HexadecimalString.NilZero.string_of_uint
                  (N.to_hex_uint (N.pos q)))).
  unfold parse_ptr. rewrite string_of_list_ascii_of_string.
  rewrite HexadecimalString.NilZero.usu
    by apply HexadecimalPos.Unsigned.to_uint_nonnil.
  simpl. by rewrite HexadecimalPos.Unsigned.of_to.
Qed.

(** A record's text reads back as the record. *)
Lemma parse_record_text key value tid_num :
  parse_record (record_text key value tid_num) = Some (key, value, tid_num).
Proof.
  unfold parse_record, record_text. rewrite !list_ascii_of_string_app.
  change (list_ascii_of_string " ") with [space]. simpl app.
  rewrite split_fields_field by apply fmt_p_no_space.
  rewrite split_fields_field by apply fmt_lu_no_space.
  rewrite split_fields_last by apply fmt_lu_no_space.
  simpl app. rewrite parse_ptr_fmt_p, !parse_dec_fmt_lu. done.
Qed.

(** ** Teardown and initialisation, one thread at a time *)

Section TeardownFacts.

Variable hash_thread_id : N → N.
Variable iteration_order : gmap N N → list (N * N).
Variable ulong_bits : N.

Abbreviation dtor := (ThreadCallMap_dtor hash_thread_id iteration_order).
Abbreviation tmain := (thread_main hash_thread_id iteration_order ulong_bits).
Abbreviation tagged tid_num :=
  (fmap (M := list) (λ e : N * N, (e.1, e.2, tid_num))).
Abbreviation writes path tid_num :=
  (fmap (M := list)
     (λ e : N * N, IoWrite path (record_line e.1 e.2 tid_num))).

Lemma write_records_eq f tid_num entries : ∀ p c,
  files p !! f_path f = Some c →
  write_records f tid_num entries p
  = mkProcess (outfile p) (file_mutex p) (environ p)
      (<[f_path f := c ++ records_bytes (tagged tid_num entries)]> (files p))
      (unwritable p)
      (io_log p ++ writes (f_path f) tid_num entries).
Proof.
  induction entries as [|e entries IH]; intros p c Hc.
  - destruct p. simpl in *. unfold records_bytes. simpl.
    by rewrite !app_nil_r, insert_id.
  - change (write_records f tid_num (e :: entries) p)
      with (write_records f tid_num entries
              (fprintf_record f e.1 e.2 tid_num p)).
    rewrite (IH _ (c ++ record_line e.1 e.2 tid_num)).
    + unfold fprintf_record, fwrite, log_io, set_files, content. simpl.
      rewrite Hc. simpl. rewrite insert_insert_eq.
      unfold records_bytes. rewrite !fmap_cons. simpl.
      by rewrite <- !app_assoc.
    + unfold fprintf_record, fwrite, log_io, set_files, content. simpl.
      rewrite Hc. simpl. by rewrite lookup_insert_eq.
Qed.

(** An accumulator without entries: the destructor returns at once. *)
Lemma dtor_empty tid t p : map t = ∅ → dtor tid t p = Some p.
Proof. intros E. unfold ThreadCallMap_dtor. by rewrite decide_True. Qed.

(** The mutex is free and the file cannot be opened: one failed open. *)
Lemma dtor_unwritable tid t p :
  map t ≠ ∅ → file_mutex p = false → outfile p ∈ unwritable p →
  dtor tid t p = Some (log_io (IoOpen (outfile p) ModeA false) p).
Proof.
  intros Hne Hfree Hro. unfold ThreadCallMap_dtor.
  rewrite decide_False by done.
  unfold lock_guard_acquire. rewrite Hfree. simpl.
  unfold fopen. simpl. rewrite decide_True by done.
  unfold lock_guard_release, log_io, set_file_mutex. simpl.
  by rewrite <- Hfree.
Qed.

(** The mutex is free and the file opens: every entry becomes a line. *)
Lemma dtor_writable tid t p :
  map t ≠ ∅ → file_mutex p = false → outfile p ∉ unwritable p →
  dtor tid t p
  = Some (mkProcess (outfile p) false (environ p)
            (<[outfile p :=
                 content (outfile p) p
                 ++ records_bytes
                      (tagged (hash_thread_id tid) (iteration_order (map t)))]>
               (files p))
            (unwritable p)
            (io_log p ++ [IoOpen (outfile p) ModeA true]
             ++ writes (outfile p) (hash_thread_id tid)
                  (iteration_order (map t))
             ++ [IoClose (outfile p)])).
Proof.
  intros Hne Hfree Hrw. unfold ThreadCallMap_dtor.
  rewrite decide_False by done.
  unfold lock_guard_acquire. rewrite Hfree. simpl.
  unfold fopen. simpl. rewrite decide_False by done.
  rewrite (write_records_eq _ _ _ _ (content (outfile p) p))
    by (simpl; apply lookup_insert_eq).
  unfold lock_guard_release, fclose, log_io, set_file_mutex. simpl.
  by rewrite insert_insert_eq, <- !app_assoc.
Qed.

(** Whatever the accumulator and the file system: with the mutex free the
    destructor returns, with the mutex free again, and all it did was
    stdio on [outfile]. *)
Lemma dtor_total tid t p :
  file_mutex p = false →
  ∃ p' evs,
    dtor tid t p = Some p'
    ∧ outfile p' = outfile p ∧ file_mutex p' = false
    ∧ environ p' = environ p ∧ unwritable p' = unwritable p
    ∧ io_log p' = io_log p ++ evs
    ∧ Forall (λ e, event_path e = outfile p) evs
    ∧ ∀ path, path ≠ outfile p → files p' !! path = files p !! path.
Proof.
  intros Hfree.
  destruct (decide (map t = ∅)) as [He|Hne].
  { exists p, []. rewrite dtor_empty, app_nil_r by done. split_and!; done. }
  destruct (decide (outfile p ∈ unwritable p)) as [Hro|Hrw].
  - eexists _, [_]. rewrite dtor_unwritable by done.
    split_and!; try done. by repeat constructor.
  - eexists _, _. rewrite dtor_writable by done.
    split_and!; try done; simpl.
    + constructor; [done|]. apply Forall_app. split; [|by repeat constructor].
      apply Forall_fmap, Forall_forall. by intros.
    + intros path Hp. by rewrite lookup_insert_ne.
Qed.

Lemma dtor_set_environ env tid t p :
  dtor tid t (set_environ env p) = set_environ env <$> dtor tid t p.
Proof.
  destruct (decide (map t = ∅)) as [He|Hne]; [by rewrite !dtor_empty|].
  destruct (file_mutex p) eqn:Hm.
  { unfold ThreadCallMap_dtor. rewrite !decide_False by done.
    unfold lock_guard_acquire. simpl. by rewrite Hm. }
  destruct (decide (outfile p ∈ unwritable p)) as [Hro|Hrw].
  - by rewrite !dtor_unwritable.
  - by rewrite !dtor_writable.
Qed.

Lemma run_nonempty call calls t :
  map (run_hooks ulong_bits (call :: calls) t) ≠ ∅.
Proof.
  intros E.
  assert (map (run_hooks ulong_bits (call :: calls) t) !! call.1 = None) as H
    by (by rewrite E).
  rewrite run_lookup, occurrences_cons in H.
  rewrite (decide_True (P := call.1 = call.1)) in H by done.
  rewrite decide_False in H by lia. done.
Qed.

Lemma run_threads_total ths : ∀ p,
  file_mutex p = false →
  ∃ p' evs,
    run_threads hash_thread_id iteration_order ulong_bits ths p = Some p'
    ∧ outfile p' = outfile p ∧ file_mutex p' = false
    ∧ environ p' = environ p ∧ unwritable p' = unwritable p
    ∧ io_log p' = io_log p ++ evs
    ∧ Forall (λ e, event_path e = outfile p) evs
    ∧ ∀ path, path ≠ outfile p → files p' !! path = files p !! path.
Proof.
  induction ths as [|[tid calls] ths IH]; intros p Hfree.
  { exists p, []. rewrite app_nil_r. split_and!; done. }
  simpl. unfold thread_main.
  destruct (dtor_total tid (run_hooks ulong_bits calls thread_call_map_init)
              p Hfree)
    as (p1 & evs1 & -> & Ho1 & Hm1 & He1 & Hu1 & Hl1 & Hp1 & Hf1).
  simpl. destruct (IH p1 Hm1)
    as (p2 & evs2 & -> & Ho2 & Hm2 & He2 & Hu2 & Hl2 & Hp2 & Hf2).
  exists p2, (evs1 ++ evs2). split_and!; try congruence.
  - by rewrite Hl2, Hl1, app_assoc.
  - apply Forall_app. split; [done|]. by rewrite <- Ho1.
  - intros path Hp. rewrite Hf2, Hf1; congruence.
Qed.

Lemma run_threads_set_environ env ths : ∀ p,
  run_threads hash_thread_id iteration_order ulong_bits ths (set_environ env p)
  = set_environ env
    <$> run_threads hash_thread_id iteration_order ulong_bits ths p.
Proof.
  induction ths as [|[tid calls] ths IH]; intros p; [done|].
  simpl. unfold thread_main. rewrite dtor_set_environ.
  destruct (dtor tid _ p) as [p1|]; simpl; [apply IH | done].
Qed.

(** What the constructor leaves behind, as one equation. *)
Lemma cc_constructor_eq p :
  let path := default (outfile p) (environ p !! "CC_OUTFILE") in
  cc_constructor p
  = if decide (path ∈ unwritable p)
    then log_io (IoOpen path ModeW false) (set_outfile path p)
    else log_io (IoClose path)
           (log_io (IoOpen path ModeW true)
              (set_files (<[path := []]> (files p)) (set_outfile path p))).
Proof.
  unfold cc_constructor, getenv.
  destruct (environ p !! "CC_OUTFILE") as [env|]; simpl;
    unfold fopen; simpl; case_decide; try done.
  all: by destruct p.
Qed.

End TeardownFacts.

Section TeardownClaims.

Variable hash_thread_id : N → N.
Variable iteration_order : gmap N N → list (N * N).
Variable ulong_bits : N.

(** C3. An accumulator with no entries is torn down without any effect:
    the destructor returns the process as it found it, files and log of
    stdio calls included, even when the mutex is held or the file cannot
    be opened. So does the whole life of a thread that makes no
    instrumented call, and the step taken at the emptiness check leads
    straight to the end. *)
Theorem empty_accumulator_no_io tid t p :
  map t = ∅ →
  ThreadCallMap_dtor hash_thread_id iteration_order tid t p = Some p
  ∧ thread_main hash_thread_id iteration_order ulong_bits tid [] p = Some p
  ∧ thread_step hash_thread_id iteration_order ulong_bits
      (mkThread tid t AtEmptyCheck) p
    = Some (mkThread tid t Ended, p).
Proof.
  intros He. split_and!.
  - by apply dtor_empty.
  - by apply dtor_empty.
  - unfold thread_step. simpl. by rewrite decide_True.
Qed.

(** C4. When the file cannot be opened for append, a thread that made at
    least one call still has all its counts in its accumulator at
    teardown, and its teardown returns: the files are what they were, the
    mutex is free again, and the only stdio call made is the failed open. *)
Theorem unopenable_sink_drops_flush tid call calls p :
  file_mutex p = false →
  outfile p ∈ unwritable p →
  (∀ func,
     map (run_hooks ulong_bits (call :: calls) thread_call_map_init) !! func
     = if decide (occurrences func (call :: calls) = 0) then None
       else Some (occurrences func (call :: calls) `mod` 2 ^ ulong_bits))
  ∧ (∃ p', thread_main hash_thread_id iteration_order ulong_bits tid
             (call :: calls) p = Some p'
           ∧ files p' = files p
           ∧ file_mutex p' = false
           ∧ outfile p' = outfile p
           ∧ io_log p' = io_log p ++ [IoOpen (outfile p) ModeA false])
  ∧ ∀ t, map t ≠ ∅ →
         ThreadCallMap_dtor hash_thread_id iteration_order tid t p
         = Some (log_io (IoOpen (outfile p) ModeA false) p).
Proof.
  intros Hfree Hro. split_and!.
  - intros func. apply run_lookup_init.
  - eexists. unfold thread_main.
    rewrite dtor_unwritable by (done || apply run_nonempty).
    split_and!; done.
  - intros t Hne. by apply dtor_unwritable.
Qed.

(** C5. The constructor opens the selected path in truncate mode and
    closes it at once. When that open succeeds the file has 0 bytes
    afterwards, whatever it held before; when it fails no file changes and
    the constructor returns all the same, having made only the failed
    open. *)
Theorem constructor_truncates_output p :
  let path := default (outfile p) (environ p !! "CC_OUTFILE") in
  outfile (cc_constructor p) = path
  ∧ file_mutex (cc_constructor p) = file_mutex p
  ∧ files (cc_constructor p)
    = (if decide (path ∈ unwritable p) then files p
       else <[path := []]> (files p))
  ∧ io_log (cc_constructor p)
    = io_log p ++ (if decide (path ∈ unwritable p)
                   then [IoOpen path ModeW false]
                   else [IoOpen path ModeW true; IoClose path])
  ∧ (if decide (path ∈ unwritable p) then True
     else files (cc_constructor p) !! path = Some []
          ∧ length (content path (cc_constructor p)) = 0%nat).
Proof.
  intros path. pose proof (cc_constructor_eq p) as E. fold path in E.
  rewrite E. clear E. unfold content.
  destruct (decide (path ∈ unwritable p)); simpl; split_and!; try done.
  - by rewrite <- app_assoc.
  - apply lookup_insert_eq.
  - by rewrite lookup_insert_eq.
Qed.

(** C6. Teardown of a non-empty accumulator with the mutex free and the
    file openable returns, and appends to the file exactly the lines of
    the entries the loop visits, in that order: read back, the appended
    bytes are one line per visited entry and nothing else. Each line is
    the entry's key as [%p] prints it, a space, its count in decimal, a
    space, and the tag of the tearing-down thread in decimal, so that it
    reads back as the triple of that key, that count and that tag. The
    visited entries are the entries of the accumulator, each once; and an
    accumulator built by the hook has an entry for exactly the functions
    called at least once. *)
Theorem teardown_appends_one_line_per_entry tid t p :
  (∀ m, iteration_order m ≡ₚ map_to_list m) →
  map t ≠ ∅ →
  file_mutex p = false →
  outfile p ∉ unwritable p →
  let entries := iteration_order (map t) in
  let tid_num := hash_thread_id tid in
  let appended := records_bytes ((λ e, (e.1, e.2, tid_num)) <$> entries) in
  (∃ p', ThreadCallMap_dtor hash_thread_id iteration_order tid t p = Some p'
         ∧ files p' = <[outfile p := content (outfile p) p ++ appended]> (files p)
         ∧ content (outfile p) p' = content (outfile p) p ++ appended
         ∧ file_mutex p' = false)
  ∧ split_lines [] appended
    = ((λ e, record_text e.1 e.2 tid_num) <$> entries, [])
  ∧ (split_lines [] appended).1
    = (λ e, list_ascii_of_string
              (match e.1 with
               | 0 => "(nil)"
               | _ => "0x" +:+ HexadecimalString.NilZero.string_of_uint
                                 (N.to_hex_uint e.1)
               end
               +:+ " " +:+ DecimalString.NilZero.string_of_uint (N.to_uint e.2)
               +:+ " "
               +:+ DecimalString.NilZero.string_of_uint (N.to_uint tid_num)))
      <$> entries
  ∧ parse_record <$> (split_lines [] appended).1
    = (λ e, Some (e.1, e.2, tid_num)) <$> entries
  ∧ (split_lines [] appended).2 = []
  ∧ entries ≡ₚ map_to_list (map t)
  ∧ length entries = size (map t)
  ∧ NoDup entries.*1
  ∧ (∀ key value, (key, value) ∈ entries ↔ map t !! key = Some value)
  ∧ ∀ calls func,
      is_Some (map (run_hooks ulong_bits calls thread_call_map_init) !! func)
      ↔ 0 < occurrences func calls.
Proof.
  intros Hperm Hne Hfree Hrw entries tid_num appended.
  assert (split_lines [] appended
          = ((λ e, record_text e.1 e.2 tid_num) <$> entries, [])) as Hlines.
  { unfold appended. rewrite split_lines_records.
    by rewrite <- list_fmap_compose. }
  split_and!.
  - eexists. rewrite dtor_writable by done. split_and!; try done.
    unfold content. simpl. by rewrite lookup_insert_eq.
  - exact Hlines.
  - rewrite Hlines. simpl. apply list_fmap_ext. intros i e _.
    unfold record_text, fmt_p, fmt_lu, fmt_zu. by destruct e.1.
  - rewrite Hlines. simpl. rewrite <- list_fmap_compose.
    apply list_fmap_ext. intros i e _. simpl. apply parse_record_text.
  - by rewrite Hlines.
  - apply Hperm.
  - unfold entries. rewrite Hperm. apply length_map_to_list.
  - unfold entries. rewrite Hperm. apply NoDup_fst_map_to_list.
  - intros key value. unfold entries. rewrite Hperm.
    apply elem_of_map_to_list.
  - intros calls func. rewrite run_lookup_init.
    case_decide as Hocc; split.
    + by intros [? ?].
    + lia.
    + lia.
    + by eexists.
Qed.

(** C7. The path in [outfile] after the constructor is the value of
    [CC_OUTFILE] when the environment has one and [callcounter.raw]
    otherwise. Any run of threads after it returns with [outfile] still
    that path, has made stdio calls on that path only, and has left every
    other file as it was. Nothing else in the environment matters: with
    another environment that agrees on [CC_OUTFILE] the run ends in the
    same process state. *)
Theorem output_path_selected_at_start env fs ro ths :
  let selected := default "callcounter.raw" (env !! "CC_OUTFILE") in
  outfile (cc_constructor (process_start env fs ro)) = selected
  ∧ ∃ p', run_process hash_thread_id iteration_order ulong_bits env fs ro ths
          = Some p'
          ∧ outfile p' = selected
          ∧ Forall (λ e, event_path e = selected) (io_log p')
          ∧ (∀ path, path ≠ selected → files p' !! path = fs !! path)
          ∧ ∀ env2, env2 !! "CC_OUTFILE" = env !! "CC_OUTFILE" →
                    run_process hash_thread_id iteration_order ulong_bits
                      env2 fs ro ths
                    = Some (set_environ env2 p').
Proof.
  intros selected.
  pose proof (constructor_init := cc_constructor_eq (process_start env fs ro)).
  simpl in constructor_init. fold selected in constructor_init.
  assert (outfile (cc_constructor (process_start env fs ro)) = selected
          ∧ file_mutex (cc_constructor (process_start env fs ro)) = false
          ∧ Forall (λ e, event_path e = selected)
              (io_log (cc_constructor (process_start env fs ro)))
          ∧ ∀ path, path ≠ selected →
              files (cc_constructor (process_start env fs ro)) !! path
              = fs !! path) as (Ho & Hm & Hl & Hf).
  { rewrite constructor_init. case_decide; simpl; split_and!; try done.
    - by repeat constructor.
    - by repeat constructor.
    - intros path Hp. by rewrite lookup_insert_ne. }
  split; [done|].
  destruct (run_threads_total hash_thread_id iteration_order ulong_bits ths
              _ Hm)
    as (p' & evs & Hrun & Ho' & Hm' & He' & Hu' & Hl' & Hp' & Hf').
  exists p'. split_and!.
  - done.
  - congruence.
  - rewrite Hl'. apply Forall_app. split; [done|]. by rewrite <- Ho.
  - intros path Hp. rewrite Hf' by congruence. by apply Hf.
  - intros env2 Henv. unfold run_process.
    replace (cc_constructor (process_start env2 fs ro))
      with (set_environ env2 (cc_constructor (process_start env fs ro))).
    + rewrite run_threads_set_environ.
      unfold run_process in Hrun. by rewrite Hrun.
    + rewrite constructor_init.
      pose proof (cc_constructor_eq (process_start env2 fs ro)) as E2.
      simpl in E2. rewrite Henv in E2. fold selected in E2. rewrite E2.
      by case_decide.
Qed.

End TeardownClaims.

(** ** Threads ending concurrently *)

Lemma records_bytes_snoc rs r :
  records_bytes (rs ++ [r]) = records_bytes rs ++ record_line r.1.1 r.1.2 r.2.
Proof.
  unfold records_bytes. rewrite fmap_app, concat_app. simpl.
  by rewrite app_nil_r.
Qed.

Lemma in_flight_none ts :
  Forall (λ t, in_flight t = []) ts → concat (in_flight <$> ts) = [].
Proof.
  induction 1 as [|t ts Ht _ IH]; [done|].
  rewrite fmap_cons. simpl. by rewrite Ht, IH.
Qed.

Lemma in_flight_single ts i t :
  ts !! i = Some t →
  (∀ j t', ts !! j = Some t' → j ≠ i → in_flight t' = []) →
  concat (in_flight <$> ts) = in_flight t.
Proof.
  revert i.
  induction ts as [|t0 ts IH]; intros i Hi Hothers; [done|].
  rewrite fmap_cons. simpl. destruct i as [|i]; simpl in Hi.
  - injection Hi as ->. rewrite in_flight_none.
    + by rewrite app_nil_r.
    + apply Forall_lookup. intros j t' Hj. by apply (Hothers (S j)).
  - rewrite (Hothers 0%nat t0) by done. simpl.
    apply (IH i); [done|]. intros j t' Hj Hne.
    apply (Hothers (S j)); [done | lia].
Qed.

Lemma in_flight_same ts i t t' :
  ts !! i = Some t → in_flight t' = in_flight t →
  concat (in_flight <$> <[i := t']> ts) = concat (in_flight <$> ts).
Proof.
  intros Hi Hfl.
  rewrite list_fmap_insert, Hfl. f_equal. apply list_insert_id.
  by rewrite list_lookup_fmap, Hi.
Qed.

Lemma in_flight_holds_lock t : holds_lock t = false → in_flight t = [].
Proof. unfold holds_lock, in_flight. by destruct (at_pc t). Qed.

Section ConcurrentFacts.

Variable hash_thread_id : N → N.
Variable iteration_order : gmap N N → list (N * N).
Variable ulong_bits : N.

Abbreviation tstep := (thread_step hash_thread_id iteration_order ulong_bits).
Abbreviation sstep := (step hash_thread_id iteration_order ulong_bits).
Abbreviation is_record := (genuine hash_thread_id).

(** A record stays a record of the system when a thread moves: the thread
    keeps its id, and its accumulator once it is in teardown. *)
Lemma genuine_after_step ts p p' i t t' r :
  ts !! i = Some t →
  tid t' = tid t →
  (in_teardown t = true →
   thread_call_map t' = thread_call_map t ∧ in_teardown t' = true) →
  is_record (mkSystem ts p) r →
  is_record (mkSystem (<[i := t']> ts) p') r.
Proof.
  intros Hi Htid Hkeep (t0 & Hin & Htd & Htag & Hlk). simpl in Hin.
  apply list_elem_of_lookup in Hin as [j Hj].
  destruct (decide (j = i)) as [->|Hne].
  - assert (t0 = t) as -> by congruence.
    destruct (Hkeep Htd) as [Hmap Htd'].
    exists t'. simpl. split_and!; try congruence.
    apply list_elem_of_lookup. exists i.
    apply list_lookup_insert_eq. by eapply lookup_lt_Some.
  - exists t0. simpl. split_and!; try done.
    apply list_elem_of_lookup. exists j. by rewrite list_lookup_insert_ne.
Qed.

(** What every step of a thread keeps: the thread's id, the path in
    [outfile], and the accumulator of a thread in teardown. *)
Lemma thread_step_keeps t p t' p' :
  tstep t p = Some (t', p') →
  tid t' = tid t ∧ outfile p' = outfile p
  ∧ (in_teardown t = true →
     thread_call_map t' = thread_call_map t ∧ in_teardown t' = true).
Proof.
  unfold thread_step, in_teardown, lock_guard_acquire, fopen.
  destruct t as [id acc l]. simpl.
  destruct l as [[|call rest]| | | |f [|e rest]|f [|b pending] rest| |];
    intros Hstep; repeat case_decide; try destruct (file_mutex p);
    simplify_eq/=; done.
Qed.

End ConcurrentFacts.

Section ConcurrentInvariant.

Variable hash_thread_id : N → N.
Variable iteration_order : gmap N N → list (N * N).
Variable ulong_bits : N.

Hypothesis iteration_order_entries :
  ∀ m, iteration_order m ≡ₚ map_to_list m.

Abbreviation tstep' := (thread_step hash_thread_id iteration_order ulong_bits).
Abbreviation sstep' := (step hash_thread_id iteration_order ulong_bits).

(** How a step changes who holds the mutex: not at all, or the thread
    acquires the free mutex, or the thread releases it. *)
Lemma thread_step_lock t p t' p' :
  tstep' t p = Some (t', p') →
  (holds_lock t' = holds_lock t ∧ file_mutex p' = file_mutex p)
  ∨ (holds_lock t = false ∧ holds_lock t' = true
     ∧ file_mutex p = false ∧ file_mutex p' = true)
  ∨ (holds_lock t = true ∧ holds_lock t' = false ∧ file_mutex p' = false).
Proof.
  unfold thread_step, holds_lock, lock_guard_acquire, fopen.
  destruct t as [id acc l]. simpl.
  destruct l as [[|call rest]| | | |f [|e rest]|f [|b pending] rest| |];
    intros Hstep; repeat case_decide; try destruct (file_mutex p) eqn:Hm;
    simplify_eq/=; naive_solver.
Qed.

Lemma thread_step_ok t p t' p' :
  tstep' t p = Some (t', p') →
  thread_ok (outfile p) t → thread_ok (outfile p) t'.
Proof.
  unfold thread_step, thread_ok, lock_guard_acquire, fopen.
  destruct t as [id acc l]. simpl.
  destruct l as [[|call rest]| | | |f [|e rest]|f [|b pending] rest| |];
    intros Hstep Hok; repeat case_decide;
    try match type of Hstep with
        | context [file_mutex p] => destruct (file_mutex p) eqn:Hm
        end;
    simplify_eq/=; try done.
  - split; [done|]. intros e He.
    rewrite iteration_order_entries in He.
    destruct e as [key value]. by apply elem_of_map_to_list in He.
  - destruct Hok as [Hf Hrest]. split; [done|].
    intros e' He'. apply Hrest. by right.
Qed.

(** How a step changes the bytes: either the file followed by the
    thread's bytes in flight reads as before, or the thread, holding the
    mutex, has just formatted the line of one of its entries. *)
Lemma thread_step_bytes path t p t' p' :
  tstep' t p = Some (t', p') →
  outfile p = path → thread_ok path t →
  (content path p' ++ in_flight t' = content path p ++ in_flight t
   ∧ (holds_lock t = false →
      content path p' = content path p ∧ in_flight t' = []))
  ∨ (∃ e, holds_lock t = true
          ∧ content path p' = content path p
          ∧ in_flight t = []
          ∧ in_flight t' = record_line e.1 e.2 (hash_thread_id (tid t'))
          ∧ map (thread_call_map t') !! e.1 = Some e.2).
Proof.
  unfold thread_step, thread_ok, holds_lock, in_flight, lock_guard_acquire,
    fopen.
  destruct t as [id acc l]. simpl.
  destruct l as [[|call rest]| | | |f [|e rest]|f [|b pending] rest| |];
    intros Hstep Hout Hok; repeat case_decide;
    try match type of Hstep with
        | context [file_mutex p] => destruct (file_mutex p) eqn:Hm
        end;
    simplify_eq/=;
    try (left; split; [done | by intros]).
  - left. split; [|by intros]. unfold content. simpl.
    by rewrite lookup_insert_eq.
  - right. exists e. destruct Hok as [Hf Hrest]. split_and!; try done.
    apply Hrest. by left.
  - left. split; [|by intros]. destruct Hok as [Hf Hrest].
    unfold content. simpl. rewrite Hf, lookup_insert_eq. simpl.
    by rewrite <- app_assoc.
Qed.

Lemma mutex_ok_step ts p i t t' p' :
  mutex_ok (mkSystem ts p) →
  ts !! i = Some t →
  tstep' t p = Some (t', p') →
  mutex_ok (mkSystem (<[i := t']> ts) p').
Proof.
  unfold mutex_ok. simpl. intros Hmx Hi Hstep.
  assert (i < length ts)%nat as Hlen by (by eapply lookup_lt_Some).
  destruct (thread_step_lock _ _ _ _ Hstep)
    as [[Hh Hm]|[(Hh & Hh' & Hm & Hm')|(Hh & Hh' & Hm')]].
  - rewrite Hm. destruct (file_mutex p).
    + destruct Hmx as (i0 & t0 & Hi0 & Hh0 & Huniq).
      destruct (decide (i = i0)) as [->|Hne].
      * exists i0, t'. split_and!.
        -- by apply list_lookup_insert_eq.
        -- assert (t0 = t) as -> by congruence. congruence.
        -- intros j t'' Hj Hh''. destruct (decide (j = i0)); [done|].
           rewrite list_lookup_insert_ne in Hj by done. by eapply Huniq.
      * exists i0, t0. split_and!; [by rewrite list_lookup_insert_ne|done|].
        intros j t'' Hj Hh''. destruct (decide (j = i)) as [->|Hji].
        -- rewrite list_lookup_insert_eq in Hj by done.
           injection Hj as <-. rewrite Hh in Hh''. exfalso. apply Hne.
           by eapply Huniq.
        -- rewrite list_lookup_insert_ne in Hj by done. by eapply Huniq.
    + apply Forall_insert; [done|]. rewrite Hh.
      by eapply (Forall_lookup_1 _ _ _ _ Hmx).
  - rewrite Hm in Hmx. rewrite Hm'. exists i, t'. split_and!.
    + by apply list_lookup_insert_eq.
    + done.
    + intros j t'' Hj Hh''. destruct (decide (j = i)); [done|].
      rewrite list_lookup_insert_ne in Hj by done.
      pose proof (Forall_lookup_1 _ _ _ _ Hmx Hj) as Hfalse. congruence.
  - rewrite Hm'. destruct (file_mutex p).
    + destruct Hmx as (i0 & t0 & Hi0 & Hh0 & Huniq).
      apply Forall_lookup. intros j t'' Hj.
      destruct (decide (j = i)) as [->|Hji].
      * rewrite list_lookup_insert_eq in Hj by done. congruence.
      * rewrite list_lookup_insert_ne in Hj by done.
        destruct (holds_lock t'') eqn:Hh''; [|done].
        exfalso. apply Hji. rewrite (Huniq j t'') by done.
        symmetry. by eapply Huniq.
    + pose proof (Forall_lookup_1 _ _ _ _ Hmx Hi) as Hfalse. congruence.
Qed.

Lemma whole_records_step path base ts p i t t' p' :
  outfile p = path →
  mutex_ok (mkSystem ts p) →
  Forall (thread_ok path) ts →
  ts !! i = Some t →
  tstep' t p = Some (t', p') →
  whole_records hash_thread_id path base (mkSystem ts p) →
  whole_records hash_thread_id path base (mkSystem (<[i := t']> ts) p').
Proof.
  intros Hout Hmx Hok Hi Hstep (rs & Hbytes & Hgen).
  unfold pending_bytes in Hbytes. simpl in Hbytes.
  assert (i < length ts)%nat as Hlen by (by eapply lookup_lt_Some).
  pose proof (thread_step_keeps _ _ _ _ _ _ _ Hstep) as (Htid & _ & Hkeep).
  assert (Forall (genuine hash_thread_id (mkSystem (<[i := t']> ts) p')) rs)
    as Hgen'.
  { eapply Forall_impl; [exact Hgen|]. intros r Hr.
    by eapply genuine_after_step. }
  pose proof (Forall_lookup_1 _ _ _ _ Hok Hi) as Hokt.
  destruct (holds_lock t) eqn:Hh.
  - (* the moving thread holds the mutex: nobody else has bytes in flight *)
    assert (∀ j t'', ts !! j = Some t'' → j ≠ i → in_flight t'' = [])
      as Hothers.
    { unfold mutex_ok in Hmx. simpl in Hmx. destruct (file_mutex p).
      - destruct Hmx as (i0 & t0 & Hi0 & Hh0 & Huniq).
        intros j t'' Hj Hne. apply in_flight_holds_lock.
        destruct (holds_lock t'') eqn:Hh''; [|done].
        exfalso. apply Hne. rewrite (Huniq j t'') by done.
        symmetry. by eapply Huniq.
      - pose proof (Forall_lookup_1 _ _ _ _ Hmx Hi). congruence. }
    rewrite (in_flight_single ts i t) in Hbytes by done.
    assert (pending_bytes (mkSystem (<[i := t']> ts) p') = in_flight t')
      as Hpend'.
    { unfold pending_bytes. simpl. apply (in_flight_single _ i).
      - by apply list_lookup_insert_eq.
      - intros j t'' Hj Hne. rewrite list_lookup_insert_ne in Hj by done.
        by eapply Hothers. }
    destruct (thread_step_bytes path _ _ _ _ Hstep Hout Hokt)
      as [[Hsame _]|(e & _ & Hc & Hfl & Hfl' & Hlk)].
    + exists rs. simpl. rewrite Hpend', Hsame. by split.
    + exists (rs ++ [(e.1, e.2, hash_thread_id (tid t'))]). simpl. split.
      * rewrite Hpend', Hc, Hfl', records_bytes_snoc. simpl.
        rewrite Hfl, app_nil_r in Hbytes. by rewrite Hbytes, app_assoc.
      * apply Forall_app. split; [done|]. constructor; [|done].
        exists t'. simpl. split_and!; try done.
        -- apply list_elem_of_lookup. exists i.
           by apply list_lookup_insert_eq.
        -- apply Hkeep. unfold holds_lock in Hh. unfold in_teardown.
           by destruct (at_pc t).
  - (* the moving thread is outside the critical section *)
    destruct (thread_step_bytes path _ _ _ _ Hstep Hout Hokt)
      as [[_ Hsame]|(e & Hh' & _)]; [|congruence].
    destruct (Hsame Hh) as [Hc Hfl'].
    exists rs. split; [|done]. unfold pending_bytes. simpl.
    rewrite (in_flight_same ts i t), Hc; [done..|].
    rewrite Hfl'. symmetry. by apply in_flight_holds_lock.
Qed.

Lemma system_inv_step path base s s' :
  system_inv hash_thread_id path base s →
  sstep' s s' →
  system_inv hash_thread_id path base s'.
Proof.
  intros (Hout & Hmx & Hok & Hrec) Hstep.
  destruct Hstep as [s i t t' p' Hi Hts]. destruct s as [ts p].
  simpl in *.
  pose proof (thread_step_keeps _ _ _ _ _ _ _ Hts) as (_ & Hout' & _).
  unfold system_inv. simpl. split_and!.
  - congruence.
  - by eapply mutex_ok_step.
  - apply Forall_insert; [done|]. rewrite <- Hout.
    eapply thread_step_ok; [done|]. rewrite Hout.
    by eapply (Forall_lookup_1 _ _ _ _ Hok).
  - by eapply whole_records_step.
Qed.

Lemma system_inv_start ths p :
  file_mutex p = false →
  system_inv hash_thread_id (outfile p) (content (outfile p) p)
    (system_start ths p).
Proof.
  intros Hfree. unfold system_inv, system_start, mutex_ok. simpl.
  rewrite Hfree. split_and!.
  - done.
  - apply Forall_fmap, Forall_forall. by intros.
  - apply Forall_fmap, Forall_forall. by intros.
  - exists []. split; [|done]. unfold pending_bytes. simpl.
    rewrite in_flight_none; [done|].
    apply Forall_fmap, Forall_forall. by intros.
Qed.

Lemma system_inv_reachable ths p s :
  file_mutex p = false →
  rtc sstep' (system_start ths p) s →
  system_inv hash_thread_id (outfile p) (content (outfile p) p) s.
Proof.
  intros Hfree Hreach. revert s Hreach.
  apply rtc_ind_r; [by apply system_inv_start|].
  intros s s' _ Hstep IH. by eapply system_inv_step.
Qed.

Lemma sched_step_rtc i s :
  rtc sstep' s (sched_step hash_thread_id iteration_order ulong_bits i s).
Proof.
  unfold sched_step.
  destruct (threads s !! i) as [t|] eqn:Hi; [|done].
  destruct (thread_step _ _ _ t (proc s)) as [[t' p']|] eqn:Hts; [|done].
  apply rtc_once. by econstructor.
Qed.

Lemma run_schedule_rtc sched : ∀ s,
  rtc sstep' s (run_schedule hash_thread_id iteration_order ulong_bits sched s).
Proof.
  induction sched as [|i sched IH]; intros s; [done|].
  simpl. etrans; [apply sched_step_rtc | apply IH].
Qed.

(** C2. Threads that end at the same time, in any interleaving of their
    steps, with [fprintf] passing its bytes on one by one: at every moment
    at most one thread is between acquiring and releasing [file_mutex];
    the file, completed by the bytes that thread has still in flight, is
    its initial content followed by whole record lines, each the record of
    an entry of some thread; and whenever the mutex is free nothing is in
    flight, so that the file itself consists of whole lines. *)
Theorem records_never_interleave ths p s :
  file_mutex p = false →
  rtc (step hash_thread_id iteration_order ulong_bits) (system_start ths p) s →
  (∀ i j ti tj,
     threads s !! i = Some ti → threads s !! j = Some tj →
     holds_lock ti = true → holds_lock tj = true → i = j)
  ∧ (file_mutex (proc s) = false → pending_bytes s = [])
  ∧ ∃ rs,
      content (outfile p) (proc s) ++ pending_bytes s
      = content (outfile p) p ++ records_bytes rs
      ∧ Forall (genuine hash_thread_id s) rs
      ∧ split_lines [] (records_bytes rs)
        = ((λ r, record_text r.1.1 r.1.2 r.2) <$> rs, []).
Proof.
  intros Hfree Hreach.
  destruct (system_inv_reachable ths p s Hfree Hreach)
    as (Hout & Hmx & Hok & rs & Hbytes & Hgen).
  unfold mutex_ok in Hmx. split_and!.
  - intros i j ti tj Hi Hj Hhi Hhj. destruct (file_mutex (proc s)).
    + destruct Hmx as (i0 & t0 & Hi0 & Hh0 & Huniq).
      rewrite (Huniq i ti), (Huniq j tj); done.
    + pose proof (Forall_lookup_1 _ _ _ _ Hmx Hi). congruence.
  - intros Hm. rewrite Hm in Hmx. unfold pending_bytes.
    apply in_flight_none. eapply Forall_impl; [exact Hmx|].
    intros t. apply in_flight_holds_lock.
  - exists rs. split_and!; [done..|]. apply split_lines_records.
Qed.

End ConcurrentInvariant.

Lemma records_never_interleave_witness :
  let p := cc_constructor (process_start ∅ ∅ ∅) in
  let s := run_schedule (λ id, id) map_to_list 64 race_schedule
             (system_start race_threads p) in
  (∀ m : gmap N N, map_to_list m ≡ₚ map_to_list m)
  ∧ file_mutex p = false
  ∧ rtc (step (λ id, id) map_to_list 64) (system_start race_threads p) s
  ∧ ∃ rs,
      content (outfile p) (proc s) ++ pending_bytes s
      = content (outfile p) p ++ records_bytes rs.
Proof.
  intros p s.
  assert (∀ m : gmap N N, map_to_list m ≡ₚ map_to_list m) as Hperm by done.
  assert (file_mutex p = false) as Hfree by reflexivity.
  assert (rtc (step (λ id, id) map_to_list 64) (system_start race_threads p) s)
    as Hreach by apply run_schedule_rtc.
  split; [exact Hperm|]. split; [exact Hfree|]. split; [exact Hreach|].
  destruct (records_never_interleave (λ id, id) map_to_list 64 Hperm
              race_threads p s Hfree Hreach) as (_ & _ & rs & Hbytes & _).
  by exists rs.
Defined.

Lemma empty_accumulator_no_io_witness :
  let p := mkProcess "callcounter.raw" true ∅
             {["callcounter.raw" := list_ascii_of_string "stale"]}
             {["callcounter.raw"]} [] in
  map thread_call_map_init = ∅
  ∧ ThreadCallMap_dtor (λ id, id) map_to_list 7 thread_call_map_init p = Some p.
Proof.
  intros p. split; [reflexivity|].
  apply (empty_accumulator_no_io (λ id, id) map_to_list 64 7
           thread_call_map_init p).
  reflexivity.
Defined.

Lemma unopenable_sink_drops_flush_witness :
  let p := cc_constructor (process_start ∅ ∅ {["callcounter.raw"]}) in
  file_mutex p = false
  ∧ outfile p ∈ unwritable p
  ∧ ThreadCallMap_dtor (λ id, id) map_to_list 7
      (run_hooks 64 [(4096, 0)] thread_call_map_init) p
    = Some (log_io (IoOpen (outfile p) ModeA false) p).
Proof.
  intros p.
  assert (file_mutex p = false) as Hfree by reflexivity.
  assert (outfile p ∈ unwritable p) as Hro.
  { change ("callcounter.raw" ∈ ({["callcounter.raw"]} : gset string)).
    by apply elem_of_singleton. }
  split; [exact Hfree|]. split; [exact Hro|].
  apply (unopenable_sink_drops_flush (λ id, id) map_to_list 64 7
           (4096, 0) [] p Hfree Hro).
  apply run_nonempty.
Defined.

Lemma teardown_appends_one_line_per_entry_witness :
  let p := cc_constructor (process_start ∅ ∅ ∅) in
  let t := run_hooks 64 [(4096, 0); (8192, 4096); (4096, 0)]
             thread_call_map_init in
  (∀ m : gmap N N, map_to_list m ≡ₚ map_to_list m)
  ∧ (map t ≠ ∅)
  ∧ file_mutex p = false
  ∧ (outfile p ∉ unwritable p)
  ∧ ∃ p', ThreadCallMap_dtor (λ id, id) map_to_list 7 t p = Some p'
          ∧ string_of_list_ascii (content "callcounter.raw" p')
            = "0x2000 1 7
0x1000 2 7
".
Proof.
  intros p t.
  assert (∀ m : gmap N N, map_to_list m ≡ₚ map_to_list m) as Hperm by done.
  assert (map t ≠ ∅) as Hne by apply run_nonempty.
  assert (file_mutex p = false) as Hfree by reflexivity.
  assert (outfile p ∉ unwritable p) as Hrw.
  { change ("callcounter.raw" ∉ (∅ : gset string)). apply not_elem_of_empty. }
  split; [exact Hperm|]. split; [exact Hne|].
  split; [exact Hfree|]. split; [exact Hrw|].
  destruct (teardown_appends_one_line_per_entry (λ id, id) map_to_list 64 7
              t p Hperm Hne Hfree Hrw) as ((p' & Hrun & _ & Hc & _) & _).
  exists p'. split; [exact Hrun|].
  change (outfile p) with "callcounter.raw" in Hc. rewrite Hc.
  reflexivity.
Defined.

Lemma output_path_selected_at_start_witness :
  let env : gmap string string := {["CC_OUTFILE" := "mycalls.raw"]} in
  let env2 : gmap string string := <["HOME" := "/root"]> env in
  let fs : gmap string (list ascii) :=
    {["mycalls.raw" := list_ascii_of_string "stale"]} in
  env2 !! "CC_OUTFILE" = env !! "CC_OUTFILE"
  ∧ "callcounter.raw" ≠ "mycalls.raw"
  ∧ ∃ p', run_process (λ id, id) map_to_list 64 env fs ∅ race_threads = Some p'
          ∧ outfile p' = "mycalls.raw"
          ∧ files p' !! "callcounter.raw" = None
          ∧ run_process (λ id, id) map_to_list 64 env2 fs ∅ race_threads
            = Some (set_environ env2 p').
Proof.
  intros env env2 fs.
  assert (env2 !! "CC_OUTFILE" = env !! "CC_OUTFILE") as Henv by reflexivity.
  assert ("callcounter.raw" ≠ "mycalls.raw") as Hpath by discriminate.
  split; [exact Henv|]. split; [exact Hpath|].
  destruct (output_path_selected_at_start (λ id, id) map_to_list 64 env fs ∅
              race_threads) as (_ & p' & Hrun & Hout & _ & Hfiles & Hother).
  exists p'. split_and!.
  - exact Hrun.
  - exact Hout.
  - by rewrite (Hfiles "callcounter.raw" Hpath).
  - exact (Hother env2 Henv).
Defined.

(** ** The scenario, evaluated *)

(** One thread after the other: the file holds the three records. *)
Example race_threads_in_sequence :
  (λ p, string_of_list_ascii (content "callcounter.raw" p))
  <$> run_process (λ id, id) map_to_list 64 ∅ ∅ ∅ race_threads
  = Some "0x2000 1 1
0x1000 3 1
0x1000 2 2
".
Proof. by vm_compute. Qed.

(** Racing teardowns, stopped while the second thread is inside [fprintf]
    and the first waits for the mutex: the file ends in the middle of a
    line, and the rest of that line is in flight. *)
Example race_threads_mid_line :
  let s := run_schedule (λ id, id) map_to_list 64
             (concat (replicate 12 [0; 1]%nat))
             (system_start race_threads
                (cc_constructor (process_start ∅ ∅ ∅))) in
  string_of_list_ascii (content "callcounter.raw" (proc s)) = "0x100"
  ∧ string_of_list_ascii (pending_bytes s) = "0 2 2
"
  ∧ holds_lock <$> threads s = [false; true].
Proof. by vm_compute. Qed.

(** Racing teardowns, run to the end: whole lines only. *)
Example race_threads_finished :
  let s := run_schedule (λ id, id) map_to_list 64 race_schedule
             (system_start race_threads
                (cc_constructor (process_start ∅ ∅ ∅))) in
  string_of_list_ascii (content "callcounter.raw" (proc s))
  = "0x1000 2 2
0x2000 1 1
0x1000 3 1
"
  ∧ at_pc <$> threads s = [Ended; Ended].
Proof. by vm_compute. Qed.

(** A null callee is printed as glibc prints a null pointer. *)
Example null_callee_record :
  string_of_list_ascii (record_text NULL 5 77) = "(nil) 5 77".
Proof. reflexivity. Qed.

(** ** A thread on its own: the steps and the destructor agree *)

Section ThreadAlone.

Variable hash_thread_id : N → N.
Variable iteration_order : gmap N N → list (N * N).
Variable ulong_bits : N.

Abbreviation steps := (thread_steps hash_thread_id iteration_order ulong_bits).

Lemma same_state_refl p : same_state p p.
Proof. by unfold same_state. Qed.

Lemma thread_steps_stuck n t p :
  thread_step hash_thread_id iteration_order ulong_bits t p = None →
  steps n t p = (t, p).
Proof. intros Hstuck. destruct n; simpl; [done|]. by rewrite Hstuck. Qed.

Lemma thread_steps_add n m : ∀ t p,
  steps (n + m) t p = steps m (steps n t p).1 (steps n t p).2.
Proof.
  induction n as [|n IH]; intros t p; [done|]. simpl.
  destruct (thread_step _ _ _ t p) as [[t' p']|] eqn:Hstep; [apply IH|].
  simpl. by rewrite thread_steps_stuck.
Qed.

Lemma thread_steps_one t p :
  steps 1 t p
  = default (t, p)
      (thread_step hash_thread_id iteration_order ulong_bits t p).
Proof. simpl. by destruct (thread_step _ _ _ t p) as [[t' p']|]. Qed.

(** The instrumented calls: one step each, and one to reach the
    destructor. *)
Lemma thread_steps_body calls : ∀ id acc p,
  steps (S (length calls)) (mkThread id acc (InBody calls)) p
  = (mkThread id (run_hooks ulong_bits calls acc) AtEmptyCheck, p).
Proof.
  induction calls as [|call calls IH]; intros id acc p; [done|].
  change (S (length (call :: calls))) with (1 + S (length calls))%nat.
  rewrite thread_steps_add, thread_steps_one. apply IH.
Qed.

Lemma thread_step_loop_cons id acc f e rest p :
  steps 1 (mkThread id acc (AtLoop f (e :: rest))) p
  = (mkThread id acc
       (InFprintf f (record_line e.1 e.2 (hash_thread_id id)) rest), p).
Proof. reflexivity. Qed.

Lemma thread_step_fprintf_done id acc f rest p :
  steps 1 (mkThread id acc (InFprintf f [] rest)) p
  = (mkThread id acc (AtLoop f rest), p).
Proof. reflexivity. Qed.

(** Inside [fprintf]: after as many steps as there are bytes, the bytes
    are at the end of the file. *)
Lemma thread_steps_fprintf pending : ∀ id acc f rest p c,
  files p !! f_path f = Some c →
  ∃ p', steps (length pending) (mkThread id acc (InFprintf f pending rest)) p
        = (mkThread id acc (InFprintf f [] rest), p')
        ∧ same_state p' (set_files (<[f_path f := c ++ pending]> (files p)) p).
Proof.
  induction pending as [|b pending IH]; intros id acc f rest p c Hc.
  - exists p. split; [done|]. unfold same_state. simpl.
    by rewrite app_nil_r, insert_id.
  - destruct (IH id acc f rest (fwrite [b] f p) (c ++ [b])) as (p' & Hrun & Hs).
    { unfold fwrite, content. simpl. by rewrite Hc, lookup_insert_eq. }
    exists p'. split; [exact Hrun|].
    unfold same_state, fwrite, content in *. simpl in *.
    rewrite Hc in Hs. simpl in Hs.
    by rewrite insert_insert_eq, <- app_assoc in Hs.
Qed.

(** The loop: after enough steps every entry left to visit has its line
    in the file. *)
Lemma thread_steps_loop entries : ∀ id acc f p c,
  files p !! f_path f = Some c →
  ∃ n p', steps n (mkThread id acc (AtLoop f entries)) p
          = (mkThread id acc (AtLoop f []), p')
          ∧ same_state p'
              (set_files
                 (<[f_path f :=
                      c ++ records_bytes
                             ((λ e, (e.1, e.2, hash_thread_id id)) <$> entries)]>
                    (files p)) p).
Proof.
  induction entries as [|e entries IH]; intros id acc f p c Hc.
  - exists 0%nat, p. split; [done|]. unfold same_state, records_bytes. simpl.
    by rewrite app_nil_r, insert_id.
  - destruct (thread_steps_fprintf (record_line e.1 e.2 (hash_thread_id id))
                id acc f entries p c Hc) as (p1 & Hrun1 & Hs1).
    destruct Hs1 as (Ho1 & Hm1 & He1 & Hf1 & Hu1). simpl in *.
    destruct (IH id acc f p1 (c ++ record_line e.1 e.2 (hash_thread_id id)))
      as (n & p2 & Hrun2 & Hs2).
    { by rewrite Hf1, lookup_insert_eq. }
    exists
      (1 + (length (record_line e.1 e.2 (hash_thread_id id)) + (1 + n)))%nat,
      p2.
    split.
    + rewrite thread_steps_add, thread_step_loop_cons. cbn [fst snd].
      rewrite thread_steps_add, Hrun1. cbn [fst snd].
      rewrite thread_steps_add, thread_step_fprintf_done. cbn [fst snd].
      exact Hrun2.
    + destruct Hs2 as (Ho2 & Hm2 & He2 & Hf2 & Hu2). simpl in *.
      unfold same_state. simpl. split_and!; try congruence.
      rewrite Hf2, Hf1, insert_insert_eq. unfold records_bytes.
      rewrite fmap_cons. simpl. by rewrite <- app_assoc.
Qed.

Lemma thread_step_check_empty id acc p :
  map acc = ∅ →
  steps 1 (mkThread id acc AtEmptyCheck) p = (mkThread id acc Ended, p).
Proof.
  intros He. unfold thread_steps, thread_step. cbn [at_pc thread_call_map].
  by rewrite decide_True.
Qed.

Lemma thread_step_check_nonempty id acc p :
  map acc ≠ ∅ →
  steps 1 (mkThread id acc AtEmptyCheck) p = (mkThread id acc AtLock, p).
Proof.
  intros Hne. unfold thread_steps, thread_step. cbn [at_pc thread_call_map].
  by rewrite decide_False.
Qed.

Lemma thread_step_acquire id acc p :
  file_mutex p = false →
  steps 1 (mkThread id acc AtLock) p
  = (mkThread id acc AtFopen, set_file_mutex true p).
Proof.
  intros Hfree. unfold thread_steps, thread_step, lock_guard_acquire.
  cbn [at_pc]. by rewrite Hfree.
Qed.

Lemma thread_step_fopen_fails id acc p :
  outfile p ∈ unwritable p →
  steps 1 (mkThread id acc AtFopen) p
  = (mkThread id acc AtUnlock, log_io (IoOpen (outfile p) ModeA false) p).
Proof.
  intros Hro. unfold thread_steps, thread_step, fopen. cbn [at_pc].
  by rewrite decide_True.
Qed.

Lemma thread_step_fopen_succeeds id acc p :
  outfile p ∉ unwritable p →
  steps 1 (mkThread id acc AtFopen) p
  = (mkThread id acc
       (AtLoop {| f_path := outfile p |} (iteration_order (map acc))),
     log_io (IoOpen (outfile p) ModeA true)
       (set_files (<[outfile p := content (outfile p) p]> (files p)) p)).
Proof.
  intros Hrw. unfold thread_steps, thread_step, fopen. cbn [at_pc].
  by rewrite decide_False.
Qed.

Lemma thread_step_fclose id acc f p :
  steps 1 (mkThread id acc (AtLoop f [])) p
  = (mkThread id acc AtUnlock, fclose f p).
Proof. reflexivity. Qed.

Lemma thread_step_release id acc p :
  steps 1 (mkThread id acc AtUnlock) p
  = (mkThread id acc Ended, lock_guard_release p).
Proof. reflexivity. Qed.

(** A thread that nobody interferes with runs to its end, and leaves the
    process as [thread_main] says, up to the log (the steps log single
    bytes, [fprintf] whole lines). *)
Lemma thread_alone_agrees id calls p :
  file_mutex p = false →
  ∃ n t' p' q,
    steps n (mkThread id thread_call_map_init (InBody calls)) p = (t', p')
    ∧ at_pc t' = Ended
    ∧ thread_call_map t' = run_hooks ulong_bits calls thread_call_map_init
    ∧ thread_main hash_thread_id iteration_order ulong_bits id calls p = Some q
    ∧ same_state p' q.
Proof.
  intros Hfree. unfold thread_main.
  set (acc := run_hooks ulong_bits calls thread_call_map_init).
  pose proof (thread_steps_body calls id thread_call_map_init p) as Hbody.
  fold acc in Hbody.
  destruct (decide (map acc = ∅)) as [He|Hne].
  { exists (S (length calls) + 1)%nat, (mkThread id acc Ended), p, p.
    rewrite thread_steps_add, Hbody, dtor_empty by done. cbn [fst snd].
    rewrite thread_step_check_empty by done. split_and!; done. }
  destruct (decide (outfile p ∈ unwritable p)) as [Hro|Hrw].
  - eexists (S (length calls) + (1 + (1 + (1 + 1))))%nat,
      (mkThread id acc Ended), _, _.
    rewrite thread_steps_add, Hbody, dtor_unwritable by done. cbn [fst snd].
    rewrite (thread_steps_add 1), thread_step_check_nonempty by done.
    cbn [fst snd].
    rewrite (thread_steps_add 1), thread_step_acquire by done. cbn [fst snd].
    rewrite (thread_steps_add 1), thread_step_fopen_fails by done.
    cbn [fst snd]. rewrite thread_step_release.
    split_and!; try done; unfold same_state; simpl; by rewrite Hfree.
  - destruct (thread_steps_loop (iteration_order (map acc)) id acc
                {| f_path := outfile p |}
                (log_io (IoOpen (outfile p) ModeA true)
                   (set_files
                      (<[outfile p := content (outfile p) p]> (files p))
                      (set_file_mutex true p)))
                (content (outfile p) p)) as (n & p1 & Hloop & Hs).
    { simpl. apply lookup_insert_eq. }
    eexists (S (length calls) + (1 + (1 + (1 + (n + (1 + 1))))))%nat,
      (mkThread id acc Ended), _, _.
    rewrite thread_steps_add, Hbody, dtor_writable by done. cbn [fst snd].
    rewrite (thread_steps_add 1), thread_step_check_nonempty by done.
    cbn [fst snd].
    rewrite (thread_steps_add 1), thread_step_acquire by done. cbn [fst snd].
    rewrite (thread_steps_add 1), thread_step_fopen_succeeds by done.
    cbn [fst snd]. rewrite thread_steps_add.
    change (content (outfile (set_file_mutex true p)) (set_file_mutex true p))
      with (content (outfile p) p).
    change (files (set_file_mutex true p)) with (files p).
    change (outfile (set_file_mutex true p)) with (outfile p).
    rewrite Hloop. cbn [fst snd].
    rewrite (thread_steps_add 1), thread_step_fclose. cbn [fst snd].
    rewrite thread_step_release.
    split_and!; try done.
    destruct Hs as (Ho & Hm & He & Hf & Hu). simpl in *.
    unfold same_state. simpl. split_and!; try done.
    by rewrite Hf, insert_insert_eq.
Qed.

End ThreadAlone.

(** * Further properties *)

(** ** The hooks *)

Section HookFacts.

Variable ulong_bits : N.

Lemma thread_call_map_eq (t1 t2 : ThreadCallMap) : map t1 = map t2 → t1 = t2.
Proof. destruct t1, t2. simpl. by intros ->. Qed.

Lemma run_events_entries evs : ∀ t,
  run_events ulong_bits evs t = run_hooks ulong_bits (entries_of evs) t.
Proof.
  induction evs as [|[func caller|func caller] evs IH]; intros t; [done|..].
  - change (run_events ulong_bits (Enter func caller :: evs) t)
      with (run_events ulong_bits evs
              (__cyg_profile_func_enter ulong_bits func caller t)).
    by rewrite IH.
  - change (run_events ulong_bits (Exit func caller :: evs) t)
      with (run_events ulong_bits evs t).
    by rewrite IH.
Qed.

Lemma occurrences_perm func calls1 calls2 :
  calls1 ≡ₚ calls2 → occurrences func calls1 = occurrences func calls2.
Proof. intros Hp. unfold occurrences. by rewrite Hp. Qed.

Lemma run_perm calls1 calls2 t :
  calls1 ≡ₚ calls2 →
  run_hooks ulong_bits calls1 t = run_hooks ulong_bits calls2 t.
Proof.
  intros Hp. apply thread_call_map_eq, map_eq. intros func.
  by rewrite !run_lookup, (occurrences_perm func calls1 calls2).
Qed.

Lemma run_dom calls : ∀ t,
  dom (map (run_hooks ulong_bits calls t))
  = dom (map t) ∪ list_to_set calls.*1.
Proof.
  induction calls as [|call calls IH]; intros t.
  - simpl. by rewrite (right_id_L ∅ (∪)).
  - rewrite run_cons, IH, enter_unfold. simpl. rewrite dom_insert_L.
    rewrite (comm_L (∪) {[call.1]} (dom (map t))).
    by rewrite (assoc_L (∪)).
Qed.

Lemma run_size calls : ∀ t,
  (size (map (run_hooks ulong_bits calls t)) ≤ size (map t) + length calls)%nat.
Proof.
  induction calls as [|call calls IH]; intros t.
  - simpl. lia.
  - rewrite run_cons. etrans; [apply IH|].
    rewrite enter_unfold. simpl. rewrite map_size_insert.
    destruct (map t !! call.1); simpl; lia.
Qed.

Lemma run_bounded calls t :
  (∀ func value, map t !! func = Some value → value < 2 ^ ulong_bits) →
  ∀ func value,
    map (run_hooks ulong_bits calls t) !! func = Some value →
    value < 2 ^ ulong_bits.
Proof.
  intros Ht func value. rewrite run_lookup. case_decide; [apply Ht|].
  intros [= <-]. apply wrap_lt.
Qed.

(** X1. Calls of the exit hook do not count: a thread's accumulator after
    any mix of entry and exit calls is the one its entry calls alone
    produce, so the count of a function is the number of its entry calls
    (modulo the counter's width), however many exits were seen. *)
Theorem exit_hooks_do_not_count evs t func :
  run_events ulong_bits evs t = run_hooks ulong_bits (entries_of evs) t
  ∧ map (run_events ulong_bits evs thread_call_map_init) !! func
    = if decide (occurrences func (entries_of evs) = 0) then None
      else Some (occurrences func (entries_of evs) `mod` 2 ^ ulong_bits).
Proof.
  split; [apply run_events_entries|].
  rewrite run_events_entries. apply run_lookup_init.
Qed.

(** X2. The order of a thread's calls does not matter: two sequences of
    entry-hook calls that are permutations of each other leave the same
    accumulator. *)
Theorem hook_order_is_irrelevant calls1 calls2 t :
  calls1 ≡ₚ calls2 →
  run_hooks ulong_bits calls1 t = run_hooks ulong_bits calls2 t.
Proof. apply run_perm. Qed.

(** X3. The hook never removes a key and never invents one: after a run
    the keys are those there before and the callees of the run, and the
    accumulator has grown by at most one entry per call. *)
Theorem accumulator_keys_are_callees calls t :
  dom (map (run_hooks ulong_bits calls t))
  = dom (map t) ∪ list_to_set calls.*1
  ∧ dom (map (run_hooks ulong_bits calls thread_call_map_init))
    = list_to_set calls.*1
  ∧ (size (map (run_hooks ulong_bits calls t))
     ≤ size (map t) + length calls)%nat.
Proof.
  split_and!.
  - apply run_dom.
  - rewrite run_dom. simpl. by rewrite dom_empty_L, (left_id_L ∅ (∪)).
  - apply run_size.
Qed.

(** X4. Counters stay within [unsigned long]: if every count of an
    accumulator is below [2 ^ ulong_bits], so is every count after any
    run of the hook. *)
Theorem counters_stay_in_range calls t :
  (∀ func value, map t !! func = Some value → value < 2 ^ ulong_bits) →
  ∀ func value,
    map (run_hooks ulong_bits calls t) !! func = Some value →
    value < 2 ^ ulong_bits.
Proof. apply run_bounded. Qed.

End HookFacts.

Lemma hook_order_is_irrelevant_witness :
  [(4096, 0); (8192, 0); (4096, 1)] ≡ₚ [(4096, 1); (4096, 0); (8192, 0)]
  ∧ run_hooks 64 [(4096, 0); (8192, 0); (4096, 1)] thread_call_map_init
    = run_hooks 64 [(4096, 1); (4096, 0); (8192, 0)] thread_call_map_init.
Proof.
  assert ([(4096, 0); (8192, 0); (4096, 1)]
          ≡ₚ [(4096, 1); (4096, 0); (8192, 0)]) as Hp.
  { apply (Permutation_app_comm [(4096, 0); (8192, 0)] [(4096, 1)]). }
  split; [exact Hp|].
  apply (hook_order_is_irrelevant 64 _ _ thread_call_map_init Hp).
Defined.

Lemma counters_stay_in_range_witness :
  (∀ func value,
     map thread_call_map_init !! func = Some value → value < 2 ^ 64)
  ∧ ∀ func value,
      map (run_hooks 64 [(4096, 0); (4096, 0)] thread_call_map_init) !! func
      = Some value →
      value < 2 ^ 64.
Proof.
  assert (∀ func value,
            map thread_call_map_init !! func = Some value → value < 2 ^ 64)
    as Hinit.
  { intros func value H. simpl in H. by rewrite lookup_empty in H. }
  split; [exact Hinit|].
  apply (counters_stay_in_range 64 [(4096, 0); (4096, 0)]
           thread_call_map_init Hinit).
Defined.

(** ** A whole run, thread after thread *)

Section SequentialRun.

Variable hash_thread_id : N → N.
Variable iteration_order : gmap N N → list (N * N).
Variable ulong_bits : N.

Hypothesis iteration_order_entries :
  ∀ m, iteration_order m ≡ₚ map_to_list m.

Lemma iteration_order_empty : iteration_order ∅ = [].
Proof.
  apply Permutation_nil_r. by rewrite iteration_order_entries, map_to_list_empty.
Qed.

Lemma records_bytes_app rs1 rs2 :
  records_bytes (rs1 ++ rs2) = records_bytes rs1 ++ records_bytes rs2.
Proof. unfold records_bytes. by rewrite fmap_app, concat_app. Qed.

Lemma run_threads_writable ths : ∀ p c,
  file_mutex p = false →
  outfile p ∉ unwritable p →
  files p !! outfile p = Some c →
  ∃ p',
    run_threads hash_thread_id iteration_order ulong_bits ths p = Some p'
    ∧ files p'
      = <[outfile p :=
            c ++ records_bytes
                   (concat (thread_records hash_thread_id iteration_order
                              ulong_bits <$> ths))]> (files p).
Proof.
  induction ths as [|[id calls] ths IH]; intros p c Hfree Hrw Hc.
  { exists p. split; [done|]. unfold records_bytes. simpl.
    by rewrite app_nil_r, insert_id. }
  simpl. unfold thread_main, thread_records at 1. simpl.
  set (acc := run_hooks ulong_bits calls thread_call_map_init).
  destruct (decide (map acc = ∅)) as [He|Hne].
  - rewrite dtor_empty by done. simpl.
    destruct (IH p c Hfree Hrw Hc) as (p' & -> & Hf).
    exists p'. split; [done|].
    by rewrite He, iteration_order_empty.
  - rewrite dtor_writable by done. simpl.
    match goal with
    | |- context [run_threads _ _ _ ths ?q] =>
        destruct (IH q (c ++ records_bytes
                              (tag_entries (hash_thread_id id)
                                 (iteration_order (map acc)))))
          as (p' & -> & Hf)
    end; try done.
    { simpl. unfold content. rewrite Hc. simpl. apply lookup_insert_eq. }
    exists p'. split; [done|]. rewrite Hf. simpl.
    by rewrite insert_insert_eq, records_bytes_app, app_assoc.
Qed.

Lemma run_threads_unwritable ths : ∀ p,
  file_mutex p = false →
  outfile p ∈ unwritable p →
  ∃ p',
    run_threads hash_thread_id iteration_order ulong_bits ths p = Some p'
    ∧ files p' = files p.
Proof.
  induction ths as [|[id calls] ths IH]; intros p Hfree Hro.
  { by exists p. }
  simpl. unfold thread_main.
  set (acc := run_hooks ulong_bits calls thread_call_map_init).
  destruct (decide (map acc = ∅)) as [He|Hne].
  - rewrite dtor_empty by done. simpl. by apply IH.
  - rewrite dtor_unwritable by done. simpl.
    destruct (IH (log_io (IoOpen (outfile p) ModeA false) p))
      as (p' & -> & Hf); try done.
    by exists p'.
Qed.

(** X6. A run in which the threads end one after the other: it returns,
    and when the selected file can be opened, it holds afterwards one
    block of records per thread, the blocks in the order the threads
    ended, and the block of a thread a list, in some order, of the
    records of its accumulator's entries with its tag; this whatever the
    file held before the run, and no other file has changed. When the
    file cannot be opened, no file has changed at all. *)
Theorem sequential_run_output env fs ro ths :
  let selected := default "callcounter.raw" (env !! "CC_OUTFILE") in
  ∃ p' blocks,
    run_process hash_thread_id iteration_order ulong_bits env fs ro ths
    = Some p'
    ∧ Forall2
        (λ th block,
           block ≡ₚ tag_entries (hash_thread_id th.1)
                      (map_to_list
                         (map (run_hooks ulong_bits th.2
                                 thread_call_map_init))))
        ths blocks
    ∧ files p'
      = if decide (selected ∈ ro) then fs
        else <[selected := records_bytes (concat blocks)]> fs.
Proof.
  intros selected. unfold run_process.
  pose proof (cc_constructor_eq (process_start env fs ro)) as E.
  simpl in E. fold selected in E. rewrite E. clear E.
  assert (Forall2
            (λ th block,
               block ≡ₚ tag_entries (hash_thread_id th.1)
                          (map_to_list
                             (map (run_hooks ulong_bits th.2
                                     thread_call_map_init))))
            ths
            (thread_records hash_thread_id iteration_order ulong_bits
             <$> ths)) as Hblocks.
  { apply Forall2_fmap_r, Forall_Forall2_diag, Forall_forall.
    intros th _. unfold thread_records, tag_entries, compose.
    by rewrite iteration_order_entries. }
  destruct (decide (selected ∈ ro)) as [Hro|Hrw].
  - match goal with
    | |- context [run_threads _ _ _ ths ?q] =>
        destruct (run_threads_unwritable ths q) as (p' & -> & Hf)
    end; try done.
    by eexists p', _.
  - match goal with
    | |- context [run_threads _ _ _ ths ?q] =>
        destruct (run_threads_writable ths q []) as (p' & -> & Hf)
    end; try done.
    { simpl. apply lookup_insert_eq. }
    eexists p', _. split; [done|]. split; [exact Hblocks|].
    rewrite Hf. simpl. by rewrite insert_insert_eq.
Qed.

End SequentialRun.

Lemma sequential_run_output_witness :
  (∀ m : gmap N N, map_to_list m ≡ₚ map_to_list m)
  ∧ ∃ p' blocks,
      run_process (λ id, id) map_to_list 64 ∅
        {["callcounter.raw" := list_ascii_of_string "stale"]} ∅ race_threads
      = Some p'
      ∧ length blocks = 2%nat
      ∧ files p' !! "callcounter.raw" = Some (records_bytes (concat blocks)).
Proof.
  assert (∀ m : gmap N N, map_to_list m ≡ₚ map_to_list m) as Hperm by done.
  split; [exact Hperm|].
  destruct (sequential_run_output (λ id, id) map_to_list 64 Hperm ∅
              {["callcounter.raw" := list_ascii_of_string "stale"]} ∅
              race_threads) as (p' & blocks & Hrun & Hblocks & Hf).
  exists p', blocks. split; [exact Hrun|]. split.
  - by rewrite <- (Forall2_length _ _ _ Hblocks).
  - rewrite Hf. apply lookup_insert_eq.
Defined.

(** ** Files only grow *)

Lemma content_log_io path e p : content path (log_io e p) = content path p.
Proof. reflexivity. Qed.

Lemma content_set_files_insert path q c p :
  content path (set_files (<[q := c]> (files p)) p)
  = if decide (q = path) then c else content path p.
Proof.
  unfold content. simpl. case_decide as E.
  - subst. by rewrite lookup_insert_eq.
  - by rewrite lookup_insert_ne.
Qed.

Lemma content_fopen_append path q p :
  content path (fopen q ModeA p).2 = content path p.
Proof.
  unfold fopen. case_decide; simpl; [done|].
  rewrite content_log_io, content_set_files_insert. by case_decide; subst.
Qed.

Lemma content_fwrite path data f p :
  content path (fwrite data f p)
  = if decide (f_path f = path) then content path p ++ data
    else content path p.
Proof.
  unfold fwrite. rewrite content_log_io, content_set_files_insert.
  by case_decide; subst.
Qed.

Section AppendOnly.

Variable hash_thread_id : N → N.
Variable iteration_order : gmap N N → list (N * N).
Variable ulong_bits : N.

Lemma thread_step_grows t p t' p' :
  thread_step hash_thread_id iteration_order ulong_bits t p = Some (t', p') →
  outfile p' = outfile p ∧ unwritable p' = unwritable p
  ∧ environ p' = environ p
  ∧ ∀ path, content path p `prefix_of` content path p'.
Proof.
  unfold thread_step, lock_guard_acquire.
  destruct t as [id acc l]. simpl.
  destruct l as [[|call rest]| | | |f [|e rest]|f [|b pending] rest| |];
    intros Hstep; repeat case_decide;
    try match type of Hstep with
        | context [file_mutex p] => destruct (file_mutex p) eqn:Hm
        end;
    simplify_eq/=; try done.
  - destruct (fopen (outfile p) ModeA p) as [[f|] p1] eqn:Hopen;
      simplify_eq/=.
    + pose proof (content_fopen_append) as Hc.
      unfold fopen in Hopen. case_decide; simplify_eq/=.
      split_and!; try done. intros path.
      specialize (Hc path (outfile p) p). unfold fopen in Hc.
      rewrite decide_False in Hc by done. simpl in Hc. by rewrite Hc.
    + unfold fopen in Hopen. case_decide; simplify_eq/=. done.
  - split_and!; try done. intros path. rewrite content_fwrite.
    case_decide; [by apply prefix_app_r | done].
Qed.

Lemma steps_grow s s' :
  rtc (step hash_thread_id iteration_order ulong_bits) s s' →
  outfile (proc s') = outfile (proc s)
  ∧ unwritable (proc s') = unwritable (proc s)
  ∧ environ (proc s') = environ (proc s)
  ∧ ∀ path, content path (proc s) `prefix_of` content path (proc s').
Proof.
  induction 1 as [s|s s1 s' Hstep _ IH]; [done|].
  destruct Hstep as [s i t t' p' Hi Hts].
  apply thread_step_grows in Hts as (Ho & Hu & He & Hc). simpl in IH.
  destruct IH as (Ho' & Hu' & He' & Hc').
  split_and!; try congruence.
  intros path. etrans; [apply Hc | apply Hc'].
Qed.

(** X7. Once the threads run, files only grow: however the threads'
    steps interleave, what a file holds at one moment is a prefix of what
    it holds at any later moment, and the path in [outfile], the
    environment and the set of unopenable paths stay what they were. *)
Theorem files_only_grow s s' :
  rtc (step hash_thread_id iteration_order ulong_bits) s s' →
  outfile (proc s') = outfile (proc s)
  ∧ unwritable (proc s') = unwritable (proc s)
  ∧ environ (proc s') = environ (proc s)
  ∧ ∀ path, content path (proc s) `prefix_of` content path (proc s').
Proof. apply steps_grow. Qed.

End AppendOnly.

Lemma files_only_grow_witness :
  let s := system_start race_threads
             (process_start ∅
                {["callcounter.raw" := list_ascii_of_string "old "]} ∅) in
  let s' := run_schedule (λ id, id) map_to_list 64 race_schedule s in
  rtc (step (λ id, id) map_to_list 64) s s'
  ∧ list_ascii_of_string "old "
    `prefix_of` content "callcounter.raw" (proc s').
Proof.
  intros s s'.
  assert (rtc (step (λ id, id) map_to_list 64) s s') as Hreach
    by apply run_schedule_rtc.
  split; [exact Hreach|].
  destruct (files_only_grow (λ id, id) map_to_list 64 s s' Hreach)
    as (_ & _ & _ & Hc).
  apply (Hc "callcounter.raw").
Defined.

(** ** Every teardown ends *)

Lemma sum_list_insert (l : list nat) : ∀ i x y,
  l !! i = Some x → (sum_list (<[i := y]> l) + x = sum_list l + y)%nat.
Proof.
  induction l as [|z l IH]; intros [|i] x y Hi; simplify_eq/=; [lia|].
  specialize (IH i x y Hi). lia.
Qed.

Section Termination.

Variable hash_thread_id : N → N.
Variable iteration_order : gmap N N → list (N * N).
Variable ulong_bits : N.

Abbreviation left_of := (steps_left hash_thread_id iteration_order ulong_bits).
Abbreviation left_in := (total_left hash_thread_id iteration_order ulong_bits).
Abbreviation moves := (step hash_thread_id iteration_order ulong_bits).

Lemma thread_step_decreases t p t' p' :
  thread_step hash_thread_id iteration_order ulong_bits t p = Some (t', p') →
  (left_of t' < left_of t)%nat.
Proof.
  unfold thread_step, steps_left, lock_guard_acquire, fopen.
  destruct t as [id acc l]. simpl.
  destruct l as [[|call rest]| | | |f [|e rest]|f [|b pending] rest| |];
    intros Hstep; repeat case_decide;
    try match type of Hstep with
        | context [file_mutex p] => destruct (file_mutex p) eqn:Hm
        end;
    simplify_eq/=; lia.
Qed.

Lemma step_decreases s s' : moves s s' → (left_in s' < left_in s)%nat.
Proof.
  intros [s0 i t t' p' Hi Hts]. unfold total_left. simpl.
  apply thread_step_decreases in Hts.
  pose proof (sum_list_insert (left_of <$> threads s0) i (left_of t)
                (left_of t')) as Hsum.
  rewrite list_fmap_insert. rewrite list_lookup_fmap, Hi in Hsum.
  specialize (Hsum eq_refl). lia.
Qed.

Lemma nsteps_bounded n : ∀ s s',
  nsteps moves n s s' → (n + left_in s' ≤ left_in s)%nat.
Proof.
  induction n as [|n IH]; intros s s' Hn.
  - inversion Hn; subst. lia.
  - inversion Hn as [|? ? s1 ? Hstep Hrest]; subst.
    apply step_decreases in Hstep. apply IH in Hrest. lia.
Qed.

Lemma thread_step_holder t p :
  holds_lock t = true →
  is_Some (thread_step hash_thread_id iteration_order ulong_bits t p).
Proof.
  unfold holds_lock, thread_step, fopen.
  destruct t as [id acc l]. simpl.
  destruct l as [[|call rest]| | | |f [|e rest]|f [|b pending] rest| |];
    intros Hh; try done; try (by eexists).
  case_decide; by eexists.
Qed.

Lemma thread_step_free t p :
  file_mutex p = false → ended t = false →
  is_Some (thread_step hash_thread_id iteration_order ulong_bits t p).
Proof.
  unfold ended, thread_step, lock_guard_acquire, fopen.
  destruct t as [id acc l]. simpl. intros Hfree.
  destruct l as [[|call rest]| | | |f [|e rest]|f [|b pending] rest| |];
    intros Hne; try done; try (by eexists);
    try (case_decide; by eexists).
  rewrite Hfree. by eexists.
Qed.

Lemma mutex_ok_steps s s' : rtc moves s s' → mutex_ok s → mutex_ok s'.
Proof.
  induction 1 as [s|s s1 s' Hstep _ IH]; [done|]. intros Hmx. apply IH.
  destruct Hstep as [s i t t' p' Hi Hts]. destruct s as [ts p].
  by eapply mutex_ok_step.
Qed.

Lemma mutex_ok_start ths p :
  file_mutex p = false →
  mutex_ok (system_start ths p).
Proof.
  intros Hfree. unfold mutex_ok, system_start. simpl. rewrite Hfree.
  apply Forall_fmap, Forall_forall. by intros.
Qed.

(** Some thread can move unless all have ended. *)
Lemma progress s :
  mutex_ok s →
  Forall (λ t, ended t = true) (threads s) ∨ ∃ s', moves s s'.
Proof.
  unfold mutex_ok. intros Hmx.
  destruct (file_mutex (proc s)) eqn:Hm.
  - right. destruct Hmx as (i & t & Hi & Hh & _).
    destruct (thread_step_holder t (proc s) Hh) as [[t' p'] Hts].
    eexists. by econstructor.
  - destruct (decide (Forall (λ t, ended t = true) (threads s)))
      as [Hall|Hnot]; [by left|right].
    apply not_Forall_Exists in Hnot; [|by intros; apply _].
    apply Exists_exists in Hnot as (t & Hin & Hne).
    apply list_elem_of_lookup in Hin as [i Hi].
    destruct (thread_step_free t (proc s) Hm) as [[t' p'] Hts].
    { by apply not_true_is_false. }
    eexists. by econstructor.
Qed.

Lemma completion n : ∀ s,
  (left_in s ≤ n)%nat → mutex_ok s →
  ∃ s', rtc moves s s' ∧ Forall (λ t, ended t = true) (threads s').
Proof.
  induction n as [|n IH]; intros s Hn Hmx;
    (destruct (progress s Hmx) as [Hall|[s1 Hstep]]; [by exists s|]).
  - apply step_decreases in Hstep. lia.
  - destruct (IH s1) as (s' & Hrun & Hall).
    + apply step_decreases in Hstep. lia.
    + eapply mutex_ok_steps; [|done]. by apply rtc_once.
    + exists s'. split; [|done]. by eapply rtc_l.
Qed.

(** X8. Teardown always terminates: however the threads are scheduled,
    [n] steps use up at least [n] of the steps the threads had left, so no
    run from a state is longer than its [total_left], a number fixed by
    the calls still to come and the sizes of the accumulators. *)
Theorem teardown_terminates n s s' :
  nsteps (step hash_thread_id iteration_order ulong_bits) n s s' →
  (n + total_left hash_thread_id iteration_order ulong_bits s'
   ≤ total_left hash_thread_id iteration_order ulong_bits s)%nat.
Proof. apply nsteps_bounded. Qed.

(** X9. Teardown never deadlocks: in every state the threads can reach
    from their start with the mutex free, either all threads have ended or
    some thread can move; and from every such state some schedule brings
    all threads to their end. *)
Theorem teardown_never_deadlocks ths p s :
  file_mutex p = false →
  rtc (step hash_thread_id iteration_order ulong_bits)
    (system_start ths p) s →
  (Forall (λ t, ended t = true) (threads s)
   ∨ ∃ s', step hash_thread_id iteration_order ulong_bits s s')
  ∧ ∃ s_end,
      rtc (step hash_thread_id iteration_order ulong_bits) s s_end
      ∧ Forall (λ t, ended t = true) (threads s_end).
Proof.
  intros Hfree Hreach.
  assert (mutex_ok s) as Hmx.
  { eapply mutex_ok_steps; [done|]. by apply mutex_ok_start. }
  split; [by apply progress|]. by eapply completion.
Qed.

End Termination.

Lemma sched_step_moves hash_thread_id iteration_order ulong_bits i s t r :
  threads s !! i = Some t →
  thread_step hash_thread_id iteration_order ulong_bits t (proc s) = Some r →
  step hash_thread_id iteration_order ulong_bits s
    (sched_step hash_thread_id iteration_order ulong_bits i s).
Proof.
  intros Hi Hts. unfold sched_step. rewrite Hi, Hts. destruct r as [t' p'].
  by econstructor.
Qed.

Lemma teardown_terminates_witness :
  let s := system_start race_threads (cc_constructor (process_start ∅ ∅ ∅)) in
  let s' := sched_step (λ id, id) map_to_list 64 0 s in
  nsteps (step (λ id, id) map_to_list 64) 1 s s'
  ∧ (1 + total_left (λ id, id) map_to_list 64 s'
     ≤ total_left (λ id, id) map_to_list 64 s)%nat.
Proof.
  intros s s'.
  assert (nsteps (step (λ id, id) map_to_list 64) 1 s s') as Hn.
  { apply nsteps_once. eapply sched_step_moves; reflexivity. }
  split; [exact Hn|].
  apply (teardown_terminates (λ id, id) map_to_list 64 1 s s' Hn).
Defined.

Lemma teardown_never_deadlocks_witness :
  let p := cc_constructor (process_start ∅ ∅ ∅) in
  let s := run_schedule (λ id, id) map_to_list 64
             (concat (replicate 12 [0; 1]%nat))
             (system_start race_threads p) in
  file_mutex p = false
  ∧ rtc (step (λ id, id) map_to_list 64) (system_start race_threads p) s
  ∧ ∃ s_end,
      rtc (step (λ id, id) map_to_list 64) s s_end
      ∧ Forall (λ t, ended t = true) (threads s_end).
Proof.
  intros p s.
  assert (file_mutex p = false) as Hfree by reflexivity.
  assert (rtc (step (λ id, id) map_to_list 64)
            (system_start race_threads p) s) as Hreach
    by apply run_schedule_rtc.
  split; [exact Hfree|]. split; [exact Hreach|].
  apply (teardown_never_deadlocks (λ id, id) map_to_list 64
           race_threads p s Hfree Hreach).
Defined.

(** ** Accumulators are thread-local *)

Section ThreadLocal.

Variable hash_thread_id : N → N.
Variable iteration_order : gmap N N → list (N * N).
Variable ulong_bits : N.

Lemma thread_step_origin th t p t' p' :
  thread_origin ulong_bits th t →
  thread_step hash_thread_id iteration_order ulong_bits t p = Some (t', p') →
  thread_origin ulong_bits th t'.
Proof.
  unfold thread_origin, thread_step, lock_guard_acquire, fopen.
  destruct t as [id acc l]. simpl.
  destruct l as [[|call rest]| | | |f [|e rest]|f [|b pending] rest| |];
    intros [Htid Hacc] Hstep; repeat case_decide;
    try match type of Hstep with
        | context [file_mutex p] => destruct (file_mutex p) eqn:Hm
        end;
    simplify_eq/=; try done.
  - destruct Hacc as (made & Hcalls & ->). split; [done|].
    by rewrite Hcalls, app_nil_r.
  - destruct Hacc as (made & Hcalls & ->). split; [done|].
    exists (made ++ [call]). rewrite Hcalls, <- app_assoc. split; [done|].
    by rewrite run_snoc.
Qed.

Lemma origin_start ths p :
  Forall2 (thread_origin ulong_bits) ths (threads (system_start ths p)).
Proof.
  unfold system_start. simpl. apply Forall2_fmap_r, Forall_Forall2_diag.
  apply Forall_forall. intros th _. split; [done|]. by exists [].
Qed.

Lemma origin_step ths s s' :
  step hash_thread_id iteration_order ulong_bits s s' →
  Forall2 (thread_origin ulong_bits) ths (threads s) →
  Forall2 (thread_origin ulong_bits) ths (threads s').
Proof.
  intros [s0 i t t' p' Hi Hts] Hall. simpl.
  destruct (Forall2_lookup_r _ _ _ _ _ Hall Hi) as (th & Hth & Ho).
  rewrite <- (list_insert_id ths i th) by done.
  apply Forall2_insert; [done|]. by eapply thread_step_origin.
Qed.

Lemma origin_reachable ths p s :
  rtc (step hash_thread_id iteration_order ulong_bits) (system_start ths p) s →
  Forall2 (thread_origin ulong_bits) ths (threads s).
Proof.
  revert s. apply rtc_ind_r; [apply origin_start|].
  intros s s' _ Hstep IH. by eapply origin_step.
Qed.

(** X10. Accumulators are thread-local: in every state the threads can
    reach, whatever the interleaving, each thread still has its own
    identity and its accumulator is the result of the calls it has made
    itself so far, all of its calls once it is in teardown; no step of
    another thread has touched it. *)
Theorem accumulators_are_thread_local ths p s :
  rtc (step hash_thread_id iteration_order ulong_bits) (system_start ths p) s →
  Forall2 (thread_origin ulong_bits) ths (threads s).
Proof. apply origin_reachable. Qed.

End ThreadLocal.

Lemma accumulators_are_thread_local_witness :
  let p := cc_constructor (process_start ∅ ∅ ∅) in
  let s := run_schedule (λ id, id) map_to_list 64
             (concat (replicate 12 [0; 1]%nat))
             (system_start race_threads p) in
  rtc (step (λ id, id) map_to_list 64) (system_start race_threads p) s
  ∧ Forall2 (thread_origin 64) race_threads (threads s).
Proof.
  intros p s.
  assert (rtc (step (λ id, id) map_to_list 64)
            (system_start race_threads p) s) as Hreach
    by apply run_schedule_rtc.
  split; [exact Hreach|].
  apply (accumulators_are_thread_local (λ id, id) map_to_list 64
           race_threads p s Hreach).
Defined.

(** ** Every record reaches the file exactly once *)

Lemma concat_fmap_insert {A B} (f : A → list B) (l : list A) : ∀ i x y extra,
  l !! i = Some x → f y = f x ++ extra →
  concat (f <$> <[i := y]> l) ≡ₚ concat (f <$> l) ++ extra.
Proof.
  induction l as [|z l IH]; intros [|i] x y extra Hi Hf; simplify_eq/=.
  - rewrite Hf, <- !app_assoc. apply Permutation_app_head.
    apply Permutation_app_comm.
  - rewrite <- app_assoc. apply Permutation_app_head. by eapply IH.
Qed.

Lemma take_visited {A} (visited rest : list A) :
  take (length (visited ++ rest) - length rest) (visited ++ rest) = visited.
Proof.
  rewrite length_app.
  replace (length visited + length rest - length rest)%nat
    with (length visited) by lia.
  by rewrite take_app_length.
Qed.

Section Completeness.

Variable hash_thread_id : N → N.
Variable iteration_order : gmap N N → list (N * N).
Variable ulong_bits : N.

Hypothesis iteration_order_entries :
  ∀ m, iteration_order m ≡ₚ map_to_list m.

Abbreviation formatted := (flushed hash_thread_id iteration_order).
Abbreviation in_loop := (loop_ok iteration_order).

(** One step of a thread and the records it has formatted: none is
    added and the bytes read as before, or the thread, holding the mutex,
    has formatted the line of one more record. *)
Lemma thread_step_flushed path writable t p t' p' :
  thread_step hash_thread_id iteration_order ulong_bits t p = Some (t', p') →
  outfile p = path →
  bool_decide (path ∉ unwritable p) = writable →
  in_loop path writable t →
  in_loop path writable t'
  ∧ ((formatted writable t' = formatted writable t
      ∧ content path p' ++ in_flight t' = content path p ++ in_flight t
      ∧ (holds_lock t = false →
         content path p' = content path p ∧ in_flight t' = []))
     ∨ (∃ r, holds_lock t = true
             ∧ formatted writable t' = formatted writable t ++ [r]
             ∧ content path p' = content path p
             ∧ in_flight t = []
             ∧ in_flight t' = record_line r.1.1 r.1.2 r.2)).
Proof.
  unfold loop_ok, flushed, holds_lock, in_flight.
  destruct t as [id acc l]. intros Hstep Hout Hwr Hok.
  unfold thread_step in Hstep. cbn [at_pc tid thread_call_map] in *.
  destruct l as [[|call rest]| | | |f [|e rest]|f [|b pending] rest| |].
  - injection Hstep as <- <-. simpl. split; [done|]. left. by split_and!.
  - injection Hstep as <- <-. simpl. split; [done|]. left. by split_and!.
  - (* the emptiness check *)
    destruct (decide (map acc = ∅)) as [He|Hne];
      injection Hstep as <- <-; simpl; (split; [done|]); left;
      split_and!; try done.
    rewrite He.
    rewrite (iteration_order_empty iteration_order iteration_order_entries).
    by destruct writable.
  - (* the lock *)
    unfold lock_guard_acquire in Hstep. destruct (file_mutex p); [done|].
    injection Hstep as <- <-. simpl. split; [done|]. left. by split_and!.
  - (* fopen *)
    pose proof (content_fopen_append path (outfile p) p) as Hc.
    unfold fopen in Hstep, Hc.
    destruct (decide (outfile p ∈ unwritable p)) as [Hro|Hrw];
      injection Hstep as <- <-; simpl in *.
    + split; [done|]. left. rewrite <- Hwr, <- Hout.
      rewrite bool_decide_eq_false_2 by auto. by split_and!.
    + split.
      * split_and!; [done| |by exists []].
        rewrite <- Hwr, <- Hout. by apply bool_decide_eq_true_2.
      * left. rewrite Nat.sub_diag, Hc. by split_and!.
  - (* fclose: every entry has been visited *)
    injection Hstep as <- <-. simpl.
    destruct Hok as (Hf & -> & visited & Hvis). split; [done|].
    left. rewrite Nat.sub_0_r, take_ge by lia. by split_and!.
  - (* fprintf starts on the next entry *)
    injection Hstep as <- <-. cbn [at_pc tid thread_call_map goto].
    destruct Hok as (Hf & -> & visited & Hvis). split.
    + split_and!; try done. exists (visited ++ [e]).
      by rewrite Hvis, <- app_assoc.
    + right. exists (e.1, e.2, hash_thread_id id).
      split_and!; try done. rewrite Hvis.
      rewrite (take_visited visited (e :: rest)).
      replace (visited ++ e :: rest) with ((visited ++ [e]) ++ rest)
        by (by rewrite <- app_assoc).
      rewrite take_visited. unfold tag_entries. by rewrite fmap_app.
  - (* fprintf is through with the line *)
    injection Hstep as <- <-. simpl. split; [done|]. left. by split_and!.
  - (* one byte reaches the file *)
    injection Hstep as <- <-. simpl.
    destruct Hok as (Hf & -> & visited & Hvis).
    split; [split_and!; [done | done | by exists visited]|].
    left. rewrite content_fwrite, decide_True by done.
    split_and!; [done | by rewrite <- app_assoc | discriminate].
  - (* the unlock *)
    injection Hstep as <- <-. simpl. split; [done|]. left. by split_and!.
  - done.
Qed.

Lemma flush_inv_step path writable base s s' :
  flush_inv hash_thread_id iteration_order path writable base s →
  step hash_thread_id iteration_order ulong_bits s s' →
  flush_inv hash_thread_id iteration_order path writable base s'.
Proof.
  intros (Hout & Hwr & Hmx & Hok & rs & Hbytes & Hperm) Hstep.
  destruct Hstep as [s i t t' p' Hi Hts]. destruct s as [ts p].
  simpl in *.
  assert (i < length ts)%nat as Hlen by (by eapply lookup_lt_Some).
  pose proof (thread_step_grows _ _ _ _ _ _ _ Hts) as (Hout' & Hun' & _).
  pose proof (Forall_lookup_1 _ _ _ _ Hok Hi) as Hokt.
  destruct (thread_step_flushed path writable _ _ _ _ Hts Hout Hwr Hokt)
    as [Hokt' Hcases].
  unfold flush_inv. simpl. split_and!.
  - congruence.
  - by rewrite Hun'.
  - by eapply mutex_ok_step.
  - by apply Forall_insert.
  - unfold pending_bytes in *. simpl in *.
    destruct (holds_lock t) eqn:Hh.
    + assert (∀ j t'', ts !! j = Some t'' → j ≠ i → in_flight t'' = [])
        as Hothers.
      { unfold mutex_ok in Hmx. simpl in Hmx. destruct (file_mutex p).
        - destruct Hmx as (i0 & t0 & Hi0 & Hh0 & Huniq).
          intros j t'' Hj Hne. apply in_flight_holds_lock.
          destruct (holds_lock t'') eqn:Hh''; [|done].
          exfalso. apply Hne. rewrite (Huniq j t'') by done.
          symmetry. by eapply Huniq.
        - pose proof (Forall_lookup_1 _ _ _ _ Hmx Hi). congruence. }
      rewrite (in_flight_single ts i t) in Hbytes by done.
      rewrite (in_flight_single (<[i := t']> ts) i t').
      2: { by apply list_lookup_insert_eq. }
      2: { intros j t'' Hj Hne. rewrite list_lookup_insert_ne in Hj by done.
           by eapply Hothers. }
      destruct Hcases as [(Hfl & Hsame & _)|(r & _ & Hfl & Hc & Hnone & Hline)].
      * exists rs. split; [by rewrite Hsame|].
        rewrite Hperm. symmetry.
        rewrite (concat_fmap_insert _ ts i t t' []) by (by rewrite ?app_nil_r).
        by rewrite app_nil_r.
      * exists (rs ++ [r]). split.
        -- rewrite Hc, Hline, records_bytes_snoc.
           rewrite Hnone, app_nil_r in Hbytes. by rewrite Hbytes, app_assoc.
        -- rewrite (concat_fmap_insert _ ts i t t' [r]) by done.
           by rewrite Hperm.
    + destruct Hcases as [(Hfl & _ & Hsame)|(r & Hh' & _)]; [|congruence].
      destruct (Hsame eq_refl) as [Hc Hfl'].
      exists rs. split.
      * rewrite (in_flight_same ts i t), Hc; [done..|].
        rewrite Hfl'. symmetry. by apply in_flight_holds_lock.
      * rewrite Hperm. symmetry.
        rewrite (concat_fmap_insert _ ts i t t' []) by (by rewrite ?app_nil_r).
        by rewrite app_nil_r.
Qed.

Lemma flush_inv_start ths p :
  file_mutex p = false →
  flush_inv hash_thread_id iteration_order (outfile p)
    (bool_decide (outfile p ∉ unwritable p)) (content (outfile p) p)
    (system_start ths p).
Proof.
  intros Hfree. unfold flush_inv, system_start, mutex_ok. simpl.
  rewrite Hfree. split_and!; try done.
  - apply Forall_fmap, Forall_forall. by intros.
  - apply Forall_fmap, Forall_forall. by intros.
  - exists []. unfold pending_bytes. simpl. split.
    + rewrite in_flight_none; [done|].
      apply Forall_fmap, Forall_forall. by intros.
    + induction ths as [|th ths IH]; [done|]. by rewrite fmap_cons.
Qed.

Lemma flush_inv_reachable ths p s :
  file_mutex p = false →
  rtc (step hash_thread_id iteration_order ulong_bits) (system_start ths p) s →
  flush_inv hash_thread_id iteration_order (outfile p)
    (bool_decide (outfile p ∉ unwritable p)) (content (outfile p) p) s.
Proof.
  intros Hfree Hreach. revert s Hreach.
  apply rtc_ind_r; [by apply flush_inv_start|].
  intros s s' _ Hstep IH. by eapply flush_inv_step.
Qed.

(** The records of threads that have all ended. *)
Lemma flushed_all_ended writable ths ts :
  Forall2 (thread_origin ulong_bits) ths ts →
  Forall (λ t, ended t = true) ts →
  concat (formatted writable <$> ts)
  = if writable
    then concat (thread_records hash_thread_id iteration_order ulong_bits
                   <$> ths)
    else [].
Proof.
  induction 1 as [|th t ths ts [Htid Hacc] _ IH]; intros Hends.
  { by destruct writable. }
  apply Forall_cons in Hends as [Hend Hends]. rewrite !fmap_cons. simpl.
  rewrite (IH Hends). unfold ended in Hend. unfold flushed, thread_records.
  destruct (at_pc t); try done. rewrite Hacc, Htid.
  by destruct writable.
Qed.

(** X11. Every record reaches the file exactly once. When all threads
    have ended, whatever the interleaving of their teardowns, the file is
    its content at the start followed by the records of all the threads,
    each record once, in some order; if the file cannot be opened it is
    unchanged. *)
Theorem every_record_is_flushed_once ths p s :
  file_mutex p = false →
  rtc (step hash_thread_id iteration_order ulong_bits) (system_start ths p) s →
  Forall (λ t, ended t = true) (threads s) →
  ∃ rs,
    content (outfile p) (proc s) = content (outfile p) p ++ records_bytes rs
    ∧ rs ≡ₚ (if bool_decide (outfile p ∉ unwritable p)
             then concat (thread_records hash_thread_id iteration_order
                            ulong_bits <$> ths)
             else []).
Proof.
  intros Hfree Hreach Hends.
  destruct (flush_inv_reachable ths p s Hfree Hreach)
    as (_ & _ & _ & _ & rs & Hbytes & Hperm).
  exists rs. split.
  - unfold pending_bytes in Hbytes. rewrite in_flight_none in Hbytes.
    + by rewrite app_nil_r in Hbytes.
    + eapply Forall_impl; [exact Hends|]. intros t. unfold ended, in_flight.
      by destruct (at_pc t).
  - rewrite Hperm.
    by rewrite (flushed_all_ended _ ths)
      by (done || by eapply origin_reachable).
Qed.

End Completeness.

Lemma every_record_is_flushed_once_witness :
  let p := cc_constructor (process_start ∅ ∅ ∅) in
  let s := run_schedule (λ id, id) map_to_list 64 race_schedule
             (system_start race_threads p) in
  (∀ m : gmap N N, map_to_list m ≡ₚ map_to_list m)
  ∧ file_mutex p = false
  ∧ rtc (step (λ id, id) map_to_list 64) (system_start race_threads p) s
  ∧ Forall (λ t, ended t = true) (threads s)
  ∧ ∃ rs,
      content (outfile p) (proc s) = content (outfile p) p ++ records_bytes rs
      ∧ rs ≡ₚ [(8192, 1, 1); (4096, 3, 1); (4096, 2, 2)].
Proof.
  intros p s.
  assert (∀ m : gmap N N, map_to_list m ≡ₚ map_to_list m) as Hperm by done.
  assert (file_mutex p = false) as Hfree by reflexivity.
  assert (rtc (step (λ id, id) map_to_list 64)
            (system_start race_threads p) s) as Hreach
    by apply run_schedule_rtc.
  assert (Forall (λ t, ended t = true) (threads s)) as Hends.
  { vm_compute. by repeat constructor. }
  split; [exact Hperm|]. split; [exact Hfree|]. split; [exact Hreach|].
  split; [exact Hends|].
  destruct (every_record_is_flushed_once (λ id, id) map_to_list 64 Hperm
              race_threads p s Hfree Hreach Hends) as (rs & Hc & Hrs).
  exists rs. split; [exact Hc|]. exact Hrs.
Defined.

(** ** What a thread prints *)

Section ThreadRecords.

Variable hash_thread_id : N → N.
Variable iteration_order : gmap N N → list (N * N).
Variable ulong_bits : N.

Hypothesis iteration_order_entries :
  ∀ m, iteration_order m ≡ₚ map_to_list m.

Lemma elem_of_tag_entries tid_num entries key value tag :
  (key, value, tag) ∈ tag_entries tid_num entries
  ↔ tag = tid_num ∧ (key, value) ∈ entries.
Proof.
  unfold tag_entries. rewrite list_elem_of_fmap. split.
  - intros ([k v] & [= -> -> ->] & Hin). done.
  - intros [-> Hin]. by exists (key, value).
Qed.

Lemma tag_entries_keys tid_num entries :
  (tag_entries tid_num entries).*1.*1 = entries.*1.
Proof.
  unfold tag_entries. rewrite <- !list_fmap_compose.
  by apply list_fmap_ext.
Qed.

(** X12. What a thread prints, read off its calls: the thread's records
    are one per function it has called, no function twice, and the record
    of a function carries the thread's tag and the number of the thread's
    calls of that function modulo [2 ^ ulong_bits]. *)
Theorem thread_records_are_its_counts tid calls key value tag :
  ((key, value, tag)
   ∈ thread_records hash_thread_id iteration_order ulong_bits (tid, calls)
   ↔ tag = hash_thread_id tid
     ∧ 0 < occurrences key calls
     ∧ value = occurrences key calls `mod` 2 ^ ulong_bits)
  ∧ NoDup (thread_records hash_thread_id iteration_order ulong_bits
             (tid, calls)).*1.*1
  ∧ length (thread_records hash_thread_id iteration_order ulong_bits
              (tid, calls))
    = size (list_to_set calls.*1 : gset N).
Proof.
  unfold thread_records. simpl. split_and!.
  - rewrite elem_of_tag_entries, iteration_order_entries,
      elem_of_map_to_list, run_lookup_init.
    case_decide as Hocc; split.
    + by intros [_ ?].
    + intros (_ & ? & _). lia.
    + intros [-> [= <-]]. split_and!; [done | lia | done].
    + intros (-> & _ & ->). done.
  - rewrite tag_entries_keys, iteration_order_entries.
    apply NoDup_fst_map_to_list.
  - unfold tag_entries. rewrite length_fmap, iteration_order_entries.
    rewrite length_map_to_list, <- size_dom, run_dom. simpl.
    by rewrite dom_empty_L, (left_id_L ∅ (∪)).
Qed.

End ThreadRecords.

Lemma thread_records_are_its_counts_witness :
  (∀ m : gmap N N, map_to_list m ≡ₚ map_to_list m)
  ∧ length (thread_records (λ id, id) map_to_list 64
              (7, [(4096, 0); (8192, 4096); (4096, 0)]))
    = size (list_to_set [(4096, 0); (8192, 4096); (4096, 0)].*1 : gset N).
Proof.
  assert (∀ m : gmap N N, map_to_list m ≡ₚ map_to_list m) as Hperm by done.
  split; [exact Hperm|].
  apply (thread_records_are_its_counts (λ id, id) map_to_list 64 Hperm 7
           [(4096, 0); (8192, 4096); (4096, 0)] 0 0 0).
Defined.

(** ** Initialisation twice *)

(** X13. Initialisation is idempotent: running the constructor a second
    time selects the same path and leaves every file as the first run
    left it; only the log of stdio calls gets longer. *)
Theorem constructor_is_idempotent p :
  same_state (cc_constructor (cc_constructor p)) (cc_constructor p).
Proof.
  pose proof (cc_constructor_eq (cc_constructor p)) as E2.
  pose proof (cc_constructor_eq p) as E1. simpl in E1, E2.
  set (path := default (outfile p) (environ p !! "CC_OUTFILE")) in *.
  assert (outfile (cc_constructor p) = path
          ∧ environ (cc_constructor p) = environ p
          ∧ unwritable (cc_constructor p) = unwritable p) as (Ho & He & Hu).
  { rewrite E1. by case_decide. }
  assert (default (outfile (cc_constructor p))
            (environ (cc_constructor p) !! "CC_OUTFILE") = path) as Hpath.
  { rewrite He, Ho. unfold path. by destruct (environ p !! "CC_OUTFILE"). }
  rewrite Hpath, Hu in E2. rewrite E2. unfold same_state.
  case_decide as Hro; simpl; rewrite ?Ho, ?He, ?Hu; split_and!; try done.
  rewrite E1. simpl. by rewrite insert_insert_eq.
Qed.

(** ** A thread on its own runs to its end *)

(** X14. A thread that no other thread interferes with, starting with
    the mutex free, reaches the end of its destructor after finitely many
    steps and stays there; its accumulator then holds all its calls, and
    the process is as the destructor taken as one function leaves it, up
    to the log of stdio calls. *)
Theorem thread_alone_runs_to_end hash_thread_id iteration_order ulong_bits
    id calls p :
  file_mutex p = false →
  ∃ n t' p' q,
    (∀ fuel, (n ≤ fuel)%nat →
       thread_steps hash_thread_id iteration_order ulong_bits fuel
         (mkThread id thread_call_map_init (InBody calls)) p = (t', p'))
    ∧ at_pc t' = Ended
    ∧ thread_call_map t' = run_hooks ulong_bits calls thread_call_map_init
    ∧ thread_main hash_thread_id iteration_order ulong_bits id calls p
      = Some q
    ∧ same_state p' q.
Proof.
  intros Hfree.
  destruct (thread_alone_agrees hash_thread_id iteration_order ulong_bits
              id calls p Hfree) as (n & t' & p' & q & Hrun & Hend & Hrest).
  exists n, t', p', q. split; [|by split].
  intros fuel Hfuel. replace fuel with (n + (fuel - n))%nat by lia.
  rewrite thread_steps_add, Hrun. simpl.
  apply thread_steps_stuck. unfold thread_step. by rewrite Hend.
Qed.

Lemma thread_alone_runs_to_end_witness :
  let p := cc_constructor (process_start ∅ ∅ ∅) in
  file_mutex p = false
  ∧ ∃ n t' q,
      (∀ fuel, (n ≤ fuel)%nat →
         (thread_steps (λ id, id) map_to_list 64 fuel
            (mkThread 7 thread_call_map_init (InBody [(4096, 0); (4096, 0)]))
            p).1 = t')
      ∧ at_pc t' = Ended
      ∧ thread_main (λ id, id) map_to_list 64 7 [(4096, 0); (4096, 0)] p
        = Some q.
Proof.
  intros p.
  assert (file_mutex p = false) as Hfree by reflexivity.
  split; [exact Hfree|].
  destruct (thread_alone_runs_to_end (λ id, id) map_to_list 64 7
              [(4096, 0); (4096, 0)] p Hfree)
    as (n & t' & p' & q & Hrun & Hend & _ & Hmain & _).
  exists n, t', q. split; [|by split].
  intros fuel Hfuel. by rewrite (Hrun fuel Hfuel).
Defined.

(** ** The mutex and the streams at the end *)

Lemma open_streams_app l1 l2 :
  open_streams (l1 ++ l2) = (open_streams l1 + open_streams l2)%Z.
Proof.
  induction l1 as [|e l1 IH]; [done|]. simpl.
  change (foldr _ 0%Z (l1 ++ l2)) with (open_streams (l1 ++ l2)).
  change (foldr _ 0%Z l1) with (open_streams l1).
  rewrite IH. destruct e as [? ? []| |]; lia.
Qed.

Lemma open_streams_log_io e p :
  open_streams (io_log (log_io e p))
  = (open_streams (io_log p) + open_streams [e])%Z.
Proof. simpl. apply open_streams_app. Qed.

Section EndState.

Variable hash_thread_id : N → N.
Variable iteration_order : gmap N N → list (N * N).
Variable ulong_bits : N.

Lemma thread_step_streams t p t' p' :
  thread_step hash_thread_id iteration_order ulong_bits t p = Some (t', p') →
  (open_streams (io_log p') + Z.of_nat (has_stream t)
   = open_streams (io_log p) + Z.of_nat (has_stream t'))%Z.
Proof.
  unfold has_stream. destruct t as [id acc l]. intros Hstep.
  unfold thread_step in Hstep. cbn [at_pc tid thread_call_map] in *.
  destruct l as [[|call rest]| | | |f [|e rest]|f [|b pending] rest| |];
    try (injection Hstep as <- <-; simpl; lia).
  - destruct (decide (map acc = ∅)); injection Hstep as <- <-; simpl; lia.
  - unfold lock_guard_acquire in Hstep. destruct (file_mutex p); [done|].
    injection Hstep as <- <-. simpl. lia.
  - unfold fopen in Hstep.
    destruct (decide (outfile p ∈ unwritable p));
      injection Hstep as <- <-; rewrite open_streams_log_io; simpl; lia.
  - injection Hstep as <- <-. unfold fclose.
    rewrite open_streams_log_io. simpl. lia.
  - injection Hstep as <- <-. unfold fwrite.
    rewrite open_streams_log_io. simpl. lia.
  - done.
Qed.

Lemma steps_streams s s' :
  rtc (step hash_thread_id iteration_order ulong_bits) s s' →
  (open_streams (io_log (proc s')) + Z.of_nat (streams_held s)
   = open_streams (io_log (proc s)) + Z.of_nat (streams_held s'))%Z.
Proof.
  induction 1 as [s|s s1 s' Hstep _ IH]; [done|].
  destruct Hstep as [s i t t' p' Hi Hts].
  apply thread_step_streams in Hts. unfold streams_held in *. simpl in *.
  pose proof (sum_list_insert (has_stream <$> threads s) i (has_stream t)
                (has_stream t')) as Hsum.
  rewrite list_lookup_fmap, Hi in Hsum. specialize (Hsum eq_refl).
  rewrite list_fmap_insert in IH. lia.
Qed.

Lemma streams_held_none ts p :
  Forall (λ t, has_stream t = 0%nat) ts → streams_held (mkSystem ts p) = 0%nat.
Proof.
  unfold streams_held. simpl.
  induction 1 as [|t ts Ht _ IH]; [done|]. rewrite fmap_cons. simpl.
  by rewrite Ht, IH.
Qed.

(** X15. The mutex is not left locked: when all threads have ended,
    however their teardowns interleaved and whether or not the file could
    be opened, [file_mutex] is free. *)
Theorem mutex_is_released_at_the_end ths p s :
  file_mutex p = false →
  rtc (step hash_thread_id iteration_order ulong_bits) (system_start ths p) s →
  Forall (λ t, ended t = true) (threads s) →
  file_mutex (proc s) = false.
Proof.
  intros Hfree Hreach Hends.
  assert (mutex_ok s) as Hmx.
  { eapply mutex_ok_steps; [done|]. by apply mutex_ok_start. }
  unfold mutex_ok in Hmx. destruct (file_mutex (proc s)); [|done].
  destruct Hmx as (i & t & Hi & Hh & _).
  pose proof (Forall_lookup_1 _ _ _ _ Hends Hi) as Hend.
  unfold ended in Hend. unfold holds_lock in Hh. by destruct (at_pc t).
Qed.

(** X16. No stream is left open: the constructor closes the stream it
    opens, and when all threads have ended, however their teardowns
    interleaved, the log of stdio calls has as many closes as successful
    opens more than it had at the start. *)
Theorem no_stream_is_left_open ths p s :
  rtc (step hash_thread_id iteration_order ulong_bits) (system_start ths p) s →
  Forall (λ t, ended t = true) (threads s) →
  open_streams (io_log (proc s)) = open_streams (io_log p)
  ∧ open_streams (io_log (cc_constructor p)) = open_streams (io_log p).
Proof.
  intros Hreach Hends. split.
  - apply steps_streams in Hreach. unfold system_start in Hreach.
    rewrite (streams_held_none _ p) in Hreach.
    2: { apply Forall_fmap, Forall_forall. by intros. }
    destruct s as [ts q]. rewrite streams_held_none in Hreach; [simpl in *; lia|].
    eapply Forall_impl; [exact Hends|]. intros t. unfold ended, has_stream.
    by destruct (at_pc t).
  - pose proof (cc_constructor_eq p) as E. simpl in E. rewrite E.
    case_decide; rewrite !open_streams_log_io; simpl; lia.
Qed.

End EndState.

Lemma mutex_is_released_at_the_end_witness :
  let p := cc_constructor (process_start ∅ ∅ {["callcounter.raw"]}) in
  let s := run_schedule (λ id, id) map_to_list 64 race_schedule
             (system_start race_threads p) in
  file_mutex p = false
  ∧ rtc (step (λ id, id) map_to_list 64) (system_start race_threads p) s
  ∧ Forall (λ t, ended t = true) (threads s)
  ∧ file_mutex (proc s) = false.
Proof.
  intros p s.
  assert (file_mutex p = false) as Hfree by reflexivity.
  assert (rtc (step (λ id, id) map_to_list 64)
            (system_start race_threads p) s) as Hreach
    by apply run_schedule_rtc.
  assert (Forall (λ t, ended t = true) (threads s)) as Hends.
  { vm_compute. by repeat constructor. }
  split; [exact Hfree|]. split; [exact Hreach|]. split; [exact Hends|].
  apply (mutex_is_released_at_the_end (λ id, id) map_to_list 64
           race_threads p s Hfree Hreach Hends).
Defined.

Lemma no_stream_is_left_open_witness :
  let p := cc_constructor (process_start ∅ ∅ ∅) in
  let s := run_schedule (λ id, id) map_to_list 64 race_schedule
             (system_start race_threads p) in
  rtc (step (λ id, id) map_to_list 64) (system_start race_threads p) s
  ∧ Forall (λ t, ended t = true) (threads s)
  ∧ open_streams (io_log (proc s)) = 0%Z.
Proof.
  intros p s.
  assert (rtc (step (λ id, id) map_to_list 64)
            (system_start race_threads p) s) as Hreach
    by apply run_schedule_rtc.
  assert (Forall (λ t, ended t = true) (threads s)) as Hends.
  { vm_compute. by repeat constructor. }
  split; [exact Hreach|]. split; [exact Hends|].
  destruct (no_stream_is_left_open (λ id, id) map_to_list 64
              race_threads p s Hreach Hends) as [Hs _].
  rewrite Hs. reflexivity.
Defined.
